(** * libfido2, src/dev.c: device sessions and the manifest-provider registry

    A shallow embedding of [src/dev.c]: the session object [fido_dev_t]
    with its INIT handshake ([fido_dev_open]), [fido_dev_close],
    [fido_dev_cancel], [fido_dev_set_io_functions], the capability
    accessors, and the process-wide list of device-manifest providers
    ([fido_dev_register_manifest_func], [fido_dev_info_manifest],
    [fido_init], [fido_exit]).

    C integers are [Z] with the wrap-around of their width written out.
    Pointers that may be NULL are [option]s.  Calls that leave [dev.c]
    (the I/O vtable, [fido_tx]/[fido_rx] of io.c, the system's random
    device, the allocator) are answered by an explicit environment and
    are logged in a trace of events. *)

From Stdlib Require Import ZArith Lia Bool List String.
From stdpp Require Import base list.
Import ListNotations.
Local Open Scope Z_scope.

(** ** What [fido.h] declares

    The header is not part of the sources at hand.  The numeric values of
    its macros are taken as parameters; every result below holds for any
    header whose error codes differ from [FIDO_OK]. *)

Class fido_h := {
  FIDO_OK : Z;
  FIDO_ERR_TX : Z;
  FIDO_ERR_RX : Z;
  FIDO_ERR_INVALID_ARGUMENT : Z;
  FIDO_ERR_INTERNAL : Z;
  (** capability bit of [attr.flags] announcing CTAP2/CBOR *)
  FIDO_CAP_CBOR : Z;
  (** flag bit of [fido_init] *)
  FIDO_DEBUG : Z;
  (** [sizeof(fido_ctap_info_t)] *)
  sizeof_attr : Z;
}.

(** The error codes used by [dev.c] are errors: none of them is [FIDO_OK]. *)
Class fido_h_errors `{fido_h} : Prop := {
  tx_not_ok : FIDO_ERR_TX <> FIDO_OK;
  rx_not_ok : FIDO_ERR_RX <> FIDO_OK;
  invalid_argument_not_ok : FIDO_ERR_INVALID_ARGUMENT <> FIDO_OK;
  internal_not_ok : FIDO_ERR_INTERNAL <> FIDO_OK;
}.

(** Modelled from the spec: the CTAPHID constants of [fido.h], which is
    absent.  Section 4.B gives INIT frames the command byte [cmd|0x80],
    INIT the code 0x06 and CANCEL the code 0x11; section 3 names the
    broadcast channel 0xFFFFFFFF. *)
Definition CTAP_FRAME_INIT : Z := 0x80.
Definition CTAP_CMD_INIT : Z := 0x06.
Definition CTAP_CMD_CANCEL : Z := 0x11.
Definition CTAP_CID_BROADCAST : Z := 0xFFFFFFFF.

(** Truncation to the C types used by [dev.c]. *)
Definition uint8 (z : Z) : Z := z mod 2 ^ 8.
(** [size_t] of the LP64 and LLP64 targets the library builds for. *)
Definition size_t (z : Z) : Z := z mod 2 ^ 64.

(** ** Data model *)

(** An open I/O handle: a non-null [void *]. *)
Definition handle := positive.

(** Functions that can sit in an I/O vtable: the four HID functions that
    [fido_dev_new] installs, and caller-supplied ones, told apart by
    their address. *)
Inductive io_fn :=
| fido_hid_open
| fido_hid_close
| fido_hid_read
| fido_hid_write
| user_io_fn (addr : nat).

(** [fido_dev_io_t]: four function pointers, each possibly NULL. *)
Record fido_dev_io_t := {
  io_open : option io_fn;
  io_close : option io_fn;
  io_read : option io_fn;
  io_write : option io_fn;
}.

(** [fido_dev_info_t], with the fields [dev.c] touches. *)
Record fido_dev_info_t := {
  info_path : option string;
  info_manufacturer : option string;
  info_product : option string;
  info_io : fido_dev_io_t;
}.

(** [fido_ctap_info_t], the reply to CTAPHID_INIT stored in [dev->attr]. *)
Record fido_ctap_info_t := {
  attr_nonce : Z;     (* uint64_t: echoed nonce *)
  attr_cid : Z;       (* uint32_t: channel id *)
  attr_protocol : Z;  (* uint8_t *)
  attr_major : Z;     (* uint8_t *)
  attr_minor : Z;     (* uint8_t *)
  attr_build : Z;     (* uint8_t *)
  attr_flags : Z;     (* uint8_t: FIDO_CAP_* *)
}.

(** [fido_dev_t].  [dev_info] points to storage owned by the session
    (allocated by [fido_dev_new], copied by [fido_dev_new_with_info]), so
    it is held by value. *)
Record fido_dev_t := {
  dev_nonce : Z;                   (* uint64_t *)
  dev_attr : fido_ctap_info_t;
  dev_cid : Z;                     (* uint32_t *)
  dev_io_handle : option handle;   (* void *, None is NULL *)
  dev_info : fido_dev_info_t;
}.

Definition set_nonce (dev : fido_dev_t) (n : Z) : fido_dev_t :=
  {| dev_nonce := n; dev_attr := dev_attr dev; dev_cid := dev_cid dev;
     dev_io_handle := dev_io_handle dev; dev_info := dev_info dev |}.

Definition set_attr (dev : fido_dev_t) (a : fido_ctap_info_t) : fido_dev_t :=
  {| dev_nonce := dev_nonce dev; dev_attr := a; dev_cid := dev_cid dev;
     dev_io_handle := dev_io_handle dev; dev_info := dev_info dev |}.

Definition set_cid (dev : fido_dev_t) (c : Z) : fido_dev_t :=
  {| dev_nonce := dev_nonce dev; dev_attr := dev_attr dev; dev_cid := c;
     dev_io_handle := dev_io_handle dev; dev_info := dev_info dev |}.

Definition set_io_handle (dev : fido_dev_t) (h : option handle) : fido_dev_t :=
  {| dev_nonce := dev_nonce dev; dev_attr := dev_attr dev; dev_cid := dev_cid dev;
     dev_io_handle := h; dev_info := dev_info dev |}.

Definition set_io (dev : fido_dev_t) (io : fido_dev_io_t) : fido_dev_t :=
  {| dev_nonce := dev_nonce dev; dev_attr := dev_attr dev; dev_cid := dev_cid dev;
     dev_io_handle := dev_io_handle dev;
     dev_info := {| info_path := info_path (dev_info dev);
                    info_manufacturer := info_manufacturer (dev_info dev);
                    info_product := info_product (dev_info dev);
                    info_io := io |} |}.

Definition set_flags (a : fido_ctap_info_t) (f : Z) : fido_ctap_info_t :=
  {| attr_nonce := attr_nonce a; attr_cid := attr_cid a;
     attr_protocol := attr_protocol a; attr_major := attr_major a;
     attr_minor := attr_minor a; attr_build := attr_build a;
     attr_flags := f |}.

Definition set_attr_nonce (a : fido_ctap_info_t) (n : Z) : fido_ctap_info_t :=
  {| attr_nonce := n; attr_cid := attr_cid a;
     attr_protocol := attr_protocol a; attr_major := attr_major a;
     attr_minor := attr_minor a; attr_build := attr_build a;
     attr_flags := attr_flags a |}.

(** ** The world outside [dev.c] *)

(** The buffer handed to [fido_tx]: NULL with count 0, or the eight bytes
    of a [uint64_t] object. *)
Inductive tx_buf :=
| buf_null
| buf_u64 (v : Z).

(** One entry per call that leaves the file through the vtable or the
    transport. *)
Inductive event :=
| EvIoOpen (f : io_fn) (path : option string) (ret : option handle)
| EvIoClose (f : option io_fn) (h : option handle)
| EvTx (cid : Z) (cmd : Z) (buf : tx_buf) (ret : Z)
| EvRx (cid : Z) (cmd : Z) (ms : Z) (ret : Z).

(** Answers of the environment.
    - [env_random_fd]: what [open(FIDO_RANDOM_DEV, O_RDONLY)] returns;
    - [env_random_read fd old]: what [read(fd, nonce, 8)] returns and the
      contents of [*nonce] afterwards;
    - [env_io_open f path]: the handle [f(path)] returns, [None] for NULL;
    - [env_fido_tx dev cmd buf]: the [int] that [fido_tx] returns;
    - [env_fido_rx dev cmd ms]: the [int] that [fido_rx] returns and the
      contents of the [sizeof(dev->attr)]-byte buffer [&dev->attr]
      afterwards.
    [fido_tx] and [fido_rx] live in io.c, which is absent; they receive
    the session but are taken not to change it, but for the reply
    buffer. *)
Record env := {
  env_random_fd : Z;
  env_random_read : Z -> Z -> Z * Z;
  env_io_open : io_fn -> option string -> option handle;
  env_fido_tx : fido_dev_t -> Z -> tx_buf -> Z;
  env_fido_rx : fido_dev_t -> Z -> Z -> Z * fido_ctap_info_t;
}.

(** Compile-time switches of [dev.c]. *)
Record build := {
  FIDO_FUZZ : bool;
  LINUX : bool;
  OSX : bool;
  WIN : bool;
  OPENBSD : bool;
  USE_HIDAPI : bool;
}.

(** ** Opening a session *)

(** [obtain_nonce], the [HAS_DEV_URANDOM] variant; the [_WIN32] variant
    has the same two outcomes.  Returns the [int] result and the contents
    of [*nonce].  The [close(fd)] on the way out touches nothing the
    session sees and is left out. *)
Definition obtain_nonce (e : env) (nonce : Z) : Z * Z :=
  let fd := env_random_fd e in
  if fd <? 0 then (-1, nonce)
  else
    let '(r, nonce') := env_random_read e fd nonce in
    if (r <? 0) || negb (r =? 8) then (-1, nonce') else (0, nonce').

Section Session.
Context `{fido_h}.

(** The result of an operation on a session: return code, session
    afterwards, calls made. *)
Definition result : Type := Z * fido_dev_t * list event.

Definition rcode (x : result) : Z := fst (fst x).
Definition rdev (x : result) : fido_dev_t := snd (fst x).
Definition rtrace (x : result) : list event := snd x.

Definition fido_dev_open_tx (e : env) (dev : fido_dev_t) (path : option string)
  : result :=
  let cmd := uint8 (Z.lor CTAP_FRAME_INIT CTAP_CMD_INIT) in
  match dev_io_handle dev with
  | Some _ => (FIDO_ERR_INVALID_ARGUMENT, dev, [])
  | None =>
    match io_open (info_io (dev_info dev)), io_close (info_io (dev_info dev)) with
    | Some fopen, Some fclose =>
      let '(rc, n) := obtain_nonce e (dev_nonce dev) in
      let dev1 := set_nonce dev n in
      if rc <? 0 then (FIDO_ERR_INTERNAL, dev1, [])
      else
        let h := env_io_open e fopen path in
        let dev2 := set_io_handle dev1 h in
        let opened := EvIoOpen fopen path h in
        match h with
        | None => (FIDO_ERR_INTERNAL, dev2, [opened])
        | Some _ =>
          let r := env_fido_tx e dev2 cmd (buf_u64 (dev_nonce dev2)) in
          let sent := EvTx (dev_cid dev2) cmd (buf_u64 (dev_nonce dev2)) r in
          if r <? 0 then
            (FIDO_ERR_TX, set_io_handle dev2 None,
             [opened; sent; EvIoClose (Some fclose) h])
          else (FIDO_OK, dev2, [opened; sent])
        end
    | _, _ => (FIDO_ERR_INVALID_ARGUMENT, dev, [])
    end
  end.

Definition fido_dev_open_rx (b : build) (e : env) (dev : fido_dev_t) (ms : Z)
  : result :=
  let cmd := uint8 (Z.lor CTAP_FRAME_INIT CTAP_CMD_INIT) in
  let '(n, reply) := env_fido_rx e dev cmd ms in
  let got := EvRx (dev_cid dev) cmd ms n in
  let dev1 := set_attr dev reply in
  let fail (d : fido_dev_t) : result :=
    (FIDO_ERR_RX, set_io_handle d None,
     [got; EvIoClose (io_close (info_io (dev_info d))) (dev_io_handle d)]) in
  if n <? 0 then fail dev1
  else
    let dev2 :=
      if FIDO_FUZZ b
      then set_attr dev1 (set_attr_nonce (dev_attr dev1) (dev_nonce dev1))
      else dev1 in
    if negb (n =? sizeof_attr)
       || negb (attr_nonce (dev_attr dev2) =? dev_nonce dev2)
    then fail dev2
    else (FIDO_OK, set_cid dev2 (attr_cid (dev_attr dev2)), [got]).

(** [(r = tx(...)) != FIDO_OK || (r = rx(...)) != FIDO_OK], then
    [return (r)], else [return (FIDO_OK)]. *)
Definition open_wait (b : build) (e : env) (dev : fido_dev_t)
    (path : option string) (ms : Z) : result :=
  let '(r, dev1, t1) := fido_dev_open_tx e dev path in
  if negb (r =? FIDO_OK) then (r, dev1, t1)
  else
    let '(r, dev2, t2) := fido_dev_open_rx b e dev1 ms in
    if negb (r =? FIDO_OK) then (r, dev2, t1 ++ t2)
    else (FIDO_OK, dev2, t1 ++ t2).

Definition fido_dev_open_wait_with_info (b : build) (e : env)
    (dev : fido_dev_t) (ms : Z) : result :=
  open_wait b e dev (info_path (dev_info dev)) ms.

Definition fido_dev_open_wait (b : build) (e : env) (dev : fido_dev_t)
    (path : option string) (ms : Z) : result :=
  open_wait b e dev path ms.

Definition fido_dev_open_with_info (b : build) (e : env) (dev : fido_dev_t)
  : result :=
  fido_dev_open_wait_with_info b e dev (-1).

Definition fido_dev_open (b : build) (e : env) (dev : fido_dev_t)
    (path : option string) : result :=
  fido_dev_open_wait b e dev path (-1).

(** ** Closing, cancelling, replacing the vtable *)

Definition fido_dev_close (dev : fido_dev_t) : result :=
  match dev_io_handle dev, io_close (info_io (dev_info dev)) with
  | Some h, Some fclose =>
    (FIDO_OK, set_io_handle dev None, [EvIoClose (Some fclose) (Some h)])
  | _, _ => (FIDO_ERR_INVALID_ARGUMENT, dev, [])
  end.

Definition fido_dev_cancel (e : env) (dev : fido_dev_t) : result :=
  let cmd := uint8 (Z.lor CTAP_FRAME_INIT CTAP_CMD_CANCEL) in
  let r := env_fido_tx e dev cmd buf_null in
  let sent := EvTx (dev_cid dev) cmd buf_null r in
  if r <? 0 then (FIDO_ERR_TX, dev, [sent]) else (FIDO_OK, dev, [sent]).

Definition fido_dev_set_io_functions (dev : fido_dev_t)
    (io : option fido_dev_io_t) : Z * fido_dev_t :=
  match dev_io_handle dev with
  | Some _ => (FIDO_ERR_INVALID_ARGUMENT, dev)
  | None =>
    match io with
    | Some (Build_fido_dev_io_t (Some o) (Some c) (Some r) (Some w) as io') =>
      (FIDO_OK, set_io dev io')
    | _ => (FIDO_ERR_INVALID_ARGUMENT, dev)
    end
  end.

End Session.

(** ** Creating and releasing a session *)

(** Outcomes of the allocator: whether a [calloc] succeeds, and whether
    [strdup] of a given string does. *)
Record heap := {
  calloc_ok : bool;
  strdup_ok : string -> bool;
}.

Definition strdup (m : heap) (s : option string) : option string :=
  match s with
  | Some str => if strdup_ok m str then Some str else None
  | None => None
  end.

Definition copy_fido_dev_info (m : heap) (dev_info : fido_dev_info_t)
  : option fido_dev_info_t :=
  if negb (calloc_ok m) then None
  else Some {| info_path := strdup m (info_path dev_info);
               info_manufacturer := strdup m (info_manufacturer dev_info);
               info_product := strdup m (info_product dev_info);
               info_io := info_io dev_info |}.

(** A [calloc]ed [fido_ctap_info_t]. *)
Definition zero_attr : fido_ctap_info_t :=
  {| attr_nonce := 0; attr_cid := 0; attr_protocol := 0; attr_major := 0;
     attr_minor := 0; attr_build := 0; attr_flags := 0 |}.

(** What [fido_dev_info_new(1)] returns when it succeeds: one zeroed
    entry (the function is defined elsewhere in the library). *)
Definition zero_dev_info : fido_dev_info_t :=
  {| info_path := None; info_manufacturer := None; info_product := None;
     info_io := {| io_open := None; io_close := None;
                   io_read := None; io_write := None |} |}.

Definition hid_io : fido_dev_io_t :=
  {| io_open := Some fido_hid_open; io_close := Some fido_hid_close;
     io_read := Some fido_hid_read; io_write := Some fido_hid_write |}.

(** [dev_ok] and [info_ok] say whether the two allocations succeed;
    [None] is the NULL result. *)
Definition fido_dev_new (dev_ok info_ok : bool) : option fido_dev_t :=
  if negb dev_ok then None
  else
    let dev := {| dev_nonce := 0; dev_attr := zero_attr;
                  dev_cid := CTAP_CID_BROADCAST; dev_io_handle := None;
                  dev_info := zero_dev_info |} in
    if negb info_ok then None
    else Some (set_io dev hid_io).

Definition fido_dev_new_with_info (dev_ok : bool) (m : heap)
    (dev_info : fido_dev_info_t) : option fido_dev_t :=
  if negb dev_ok then None
  else
    match info_io dev_info with
    | Build_fido_dev_io_t (Some _) (Some _) (Some _) (Some _) =>
      match copy_fido_dev_info m dev_info with
      | None => None
      | Some copied =>
        Some {| dev_nonce := 0; dev_attr := zero_attr;
                dev_cid := CTAP_CID_BROADCAST; dev_io_handle := None;
                dev_info := copied |}
      end
    | _ => None
    end.

(** [fido_dev_free] leaves [*dev_p] NULL. *)
Definition fido_dev_free (dev_p : option (option fido_dev_t))
  : option (option fido_dev_t) :=
  match dev_p with
  | None => None
  | Some _ => Some None
  end.

(** ** Attribute readers and the CBOR capability *)

Definition fido_dev_protocol (dev : fido_dev_t) : Z := attr_protocol (dev_attr dev).
Definition fido_dev_major (dev : fido_dev_t) : Z := attr_major (dev_attr dev).
Definition fido_dev_minor (dev : fido_dev_t) : Z := attr_minor (dev_attr dev).
Definition fido_dev_build (dev : fido_dev_t) : Z := attr_build (dev_attr dev).
Definition fido_dev_flags (dev : fido_dev_t) : Z := attr_flags (dev_attr dev).

Section Capability.
Context `{fido_h}.

(** The [int] value [flags & FIDO_CAP_CBOR] converted to [bool]. *)
Definition fido_dev_is_fido2 (dev : fido_dev_t) : bool :=
  negb (Z.land (attr_flags (dev_attr dev)) FIDO_CAP_CBOR =? 0).

Definition fido_dev_force_u2f (dev : fido_dev_t) : fido_dev_t :=
  set_attr dev
    (set_flags (dev_attr dev)
       (uint8 (Z.land (attr_flags (dev_attr dev)) (Z.lnot FIDO_CAP_CBOR)))).

Definition fido_dev_force_fido2 (dev : fido_dev_t) : fido_dev_t :=
  set_attr dev
    (set_flags (dev_attr dev)
       (uint8 (Z.lor (attr_flags (dev_attr dev)) FIDO_CAP_CBOR))).

End Capability.

(** ** The registry of manifest providers *)

(** A [dev_manifest_func_t]: the platform providers [fido_init] knows and
    caller-supplied ones, told apart by their address. *)
Inductive dev_manifest_func_t :=
| hidapi_dev_info_manifest
| fido_dev_info_manifest_linux
| fido_dev_info_manifest_osx
| fido_dev_info_manifest_win
| fido_dev_info_manifest_openbsd
| user_manifest_func (addr : nat).

(** The file's global state: [manifest_funcs], first node first, and
    whether [fido_log_init] has been called. *)
Record globals := {
  manifest_funcs : list dev_manifest_func_t;
  logging : bool;
}.

(** What a provider does when called as
    [m_func(devlist + off, cap, &curr_olen)]: its return code, the value
    it stores in [curr_olen], and the entries it writes from
    [devlist + off] on. *)
Record manifest_ret := {
  mr_r : Z;
  mr_olen : Z;
  mr_written : list fido_dev_info_t;
}.

Definition manifest_impl : Type := dev_manifest_func_t -> Z -> Z -> manifest_ret.

(** One provider invocation: which function, the value of [*olen] at the
    call, and the capacity [ilen - *olen] it was given. *)
Record manifest_call := {
  mc_func : dev_manifest_func_t;
  mc_off : Z;
  mc_cap : Z;
}.

Record manifest_out := {
  mo_r : Z;
  mo_devlist : list fido_dev_info_t;
  mo_olen : Z;
  mo_calls : list manifest_call;
}.

Definition called (c : manifest_call) (o : manifest_out) : manifest_out :=
  {| mo_r := mo_r o; mo_devlist := mo_devlist o; mo_olen := mo_olen o;
     mo_calls := c :: mo_calls o |}.

Section Registry.
Context `{fido_h}.

Definition fido_dev_register_manifest_func (calloc_succeeds : bool)
    (func : dev_manifest_func_t) (g : globals) : Z * globals :=
  if negb calloc_succeeds then (FIDO_ERR_INTERNAL, g)
  else (FIDO_OK, {| manifest_funcs := func :: manifest_funcs g;
                    logging := logging g |}).

(** The [for] loop of [fido_dev_info_manifest], from node [curr] on.
    Entries a provider writes past the end of [devlist] are undefined
    behaviour in C; the list update drops them. *)
Fixpoint manifest_loop (impl : manifest_impl) (curr : list dev_manifest_func_t)
    (devlist : list fido_dev_info_t) (ilen olen : Z) : manifest_out :=
  match curr with
  | [] => {| mo_r := FIDO_OK; mo_devlist := devlist; mo_olen := olen;
             mo_calls := [] |}
  | m_func :: next =>
    let cap := size_t (ilen - olen) in
    let ret := impl m_func olen cap in
    let devlist' := list_inserts (Z.to_nat olen) (mr_written ret) devlist in
    let call := {| mc_func := m_func; mc_off := olen; mc_cap := cap |} in
    if mr_r ret =? FIDO_OK then
      let olen' := size_t (olen + mr_olen ret) in
      if olen' =? ilen then
        {| mo_r := FIDO_OK; mo_devlist := devlist'; mo_olen := olen';
           mo_calls := [call] |}
      else called call (manifest_loop impl next devlist' ilen olen')
    else
      {| mo_r := mr_r ret; mo_devlist := devlist'; mo_olen := olen;
         mo_calls := [call] |}
  end.

Definition fido_dev_info_manifest (impl : manifest_impl) (g : globals)
    (devlist : list fido_dev_info_t) (ilen : Z) : manifest_out :=
  manifest_loop impl (manifest_funcs g) devlist ilen 0.

(** Inputs of [fido_init] besides its argument: whether the environment
    variable [FIDO_DEBUG] is set, whether the node allocation succeeds,
    and what [hid_init] returns. *)
Record init_env := {
  getenv_FIDO_DEBUG : bool;
  init_calloc_ok : bool;
  hid_init_ret : Z;
}.

Definition fido_log_init (g : globals) : globals :=
  {| manifest_funcs := manifest_funcs g; logging := true |}.

(** [None] is the process ended by [errx(1, ...)]. *)
Definition fido_init (b : build) (ie : init_env) (flags : Z) (g : globals)
  : option globals :=
  let g1 :=
    if negb (Z.land flags FIDO_DEBUG =? 0) || getenv_FIDO_DEBUG ie
    then fido_log_init g else g in
  let register f := snd (fido_dev_register_manifest_func (init_calloc_ok ie) f g1) in
  if LINUX b then
    if USE_HIDAPI b then
      let g2 := register hidapi_dev_info_manifest in
      if negb (hid_init_ret ie =? 0) then None else Some g2
    else Some (register fido_dev_info_manifest_linux)
  else if OSX b then Some (register fido_dev_info_manifest_osx)
  else if WIN b then Some (register fido_dev_info_manifest_win)
  else if OPENBSD b then Some (register fido_dev_info_manifest_openbsd)
  else Some g1.

(** The [while] loop of [fido_exit]: the nodes it frees. *)
Fixpoint free_nodes (curr : list dev_manifest_func_t) : nat :=
  match curr with
  | [] => O
  | _ :: next => S (free_nodes next)
  end.

(** Returns the globals afterwards and the number of nodes freed.
    [hid_exit] of a hidapi build has no effect on the file's state. *)
Definition fido_exit (g : globals) : globals * nat :=
  ({| manifest_funcs := []; logging := logging g |},
   free_nodes (manifest_funcs g)).

(** The provider [fido_init] registers in build [b], if any: the outcome
    of its [#if] chain. *)
Definition platform_manifest_func (b : build) : option dev_manifest_func_t :=
  if LINUX b then
    Some (if USE_HIDAPI b then hidapi_dev_info_manifest
          else fido_dev_info_manifest_linux)
  else if OSX b then Some fido_dev_info_manifest_osx
  else if WIN b then Some fido_dev_info_manifest_win
  else if OPENBSD b then Some fido_dev_info_manifest_openbsd
  else None.

(** [fido_dev_register_manifest_func(f1); ...; (fn)], every allocation
    succeeding. *)
Definition register_all (fs : list dev_manifest_func_t) (g : globals) : globals :=
  fold_left (fun g f => snd (fido_dev_register_manifest_func true f g)) fs g.

(** What the provider answered at call [c]. *)
Definition call_ret (impl : manifest_impl) (c : manifest_call) : manifest_ret :=
  impl (mc_func c) (mc_off c) (mc_cap c).

(** The providers called, in call order. *)
Definition invoked (o : manifest_out) : list dev_manifest_func_t :=
  map mc_func (mo_calls o).

(** The number of entries the calls [cs] wrote. *)
Definition entries_written (impl : manifest_impl) (cs : list manifest_call) : Z :=
  fold_right (fun c acc => Z.of_nat (length (mr_written (call_ret impl c))) + acc)
    0 cs.

(** A provider that keeps to its contract: it writes no more entries
    than the capacity it is given, and when it succeeds it reports the
    number of entries it wrote.  Offsets and capacities are [size_t]
    values. *)
Definition well_behaved (impl : manifest_impl) (fs : list dev_manifest_func_t)
  : Prop :=
  forall f off cap, In f fs -> 0 <= off -> 0 <= cap ->
    Z.of_nat (length (mr_written (impl f off cap))) <= cap /\
    (mr_r (impl f off cap) = FIDO_OK ->
     mr_olen (impl f off cap) = Z.of_nat (length (mr_written (impl f off cap)))).

End Registry.

(** ** Sessions the API can produce *)

Section Reachable.
Context `{fido_h}.

(** The sessions a caller can hold: [fido_dev_t] is opaque outside the
    library, so a session is built by one of the two constructors and
    changed only through the functions of this file. *)
Inductive reachable (b : build) : fido_dev_t -> Prop :=
| reach_new dev_ok info_ok d :
    fido_dev_new dev_ok info_ok = Some d -> reachable b d
| reach_new_with_info dev_ok m info d :
    fido_dev_new_with_info dev_ok m info = Some d -> reachable b d
| reach_open e d path :
    reachable b d -> reachable b (rdev (fido_dev_open b e d path))
| reach_open_with_info e d :
    reachable b d -> reachable b (rdev (fido_dev_open_with_info b e d))
| reach_close d :
    reachable b d -> reachable b (rdev (fido_dev_close d))
| reach_cancel e d :
    reachable b d -> reachable b (rdev (fido_dev_cancel e d))
| reach_set_io d io :
    reachable b d -> reachable b (snd (fido_dev_set_io_functions d io))
| reach_force_u2f d :
    reachable b d -> reachable b (fido_dev_force_u2f d)
| reach_force_fido2 d :
    reachable b d -> reachable b (fido_dev_force_fido2 d).

(** What the environment must answer for a handshake to go through on
    [dev]: a nonce is obtained, the vtable's [open] yields a handle, the
    INIT request is sent, and the reply has the full size and echoes the
    nonce. *)
Definition cooperative (e : env) (dev : fido_dev_t) (path : option string)
    (ms : Z) : Prop :=
  exists fopen fclose n h reply,
    io_open (info_io (dev_info dev)) = Some fopen /\
    io_close (info_io (dev_info dev)) = Some fclose /\
    obtain_nonce e (dev_nonce dev) = (0, n) /\
    env_io_open e fopen path = Some h /\
    let dev2 := set_io_handle (set_nonce dev n) (Some h) in
    let cmd := uint8 (Z.lor CTAP_FRAME_INIT CTAP_CMD_INIT) in
    0 <= env_fido_tx e dev2 cmd (buf_u64 n) /\
    env_fido_rx e dev2 cmd ms = (sizeof_attr, reply) /\
    0 <= sizeof_attr /\
    attr_nonce reply = n.

End Reachable.

(** ** Concrete header and environments

    The values libfido2 gives the macros, to run the model on concrete
    inputs. *)
Definition libfido2_h : fido_h :=
  {| FIDO_OK := 0; FIDO_ERR_TX := -1; FIDO_ERR_RX := -2;
     FIDO_ERR_INVALID_ARGUMENT := -7; FIDO_ERR_INTERNAL := -9;
     FIDO_CAP_CBOR := 0x04; FIDO_DEBUG := 0x01; sizeof_attr := 17 |}.

Definition release_linux : build :=
  {| FIDO_FUZZ := false; LINUX := true; OSX := false; WIN := false;
     OPENBSD := false; USE_HIDAPI := false |}.

(** The scripted device of the INIT scenario: the nonce read is
    0x0807060504030201; the device echoes whatever nonce the session
    holds and assigns [cid] with protocol 2, version 1.0.0 and the given
    flags. *)
Definition scripted_reply (nonce cid flags : Z) : fido_ctap_info_t :=
  {| attr_nonce := nonce; attr_cid := cid; attr_protocol := 2;
     attr_major := 1; attr_minor := 0; attr_build := 0; attr_flags := flags |}.

Definition scripted_env (cid flags : Z) : env :=
  {| env_random_fd := 3;
     env_random_read := fun _ _ => (8, 0x0807060504030201);
     env_io_open := fun _ _ => Some 1%positive;
     env_fido_tx := fun _ _ _ => 0;
     env_fido_rx := fun dev _ _ => (17, scripted_reply (dev_nonce dev) cid flags) |}.

(** A device that answers INIT with a nonce of its own. *)
Definition wrong_nonce_env : env :=
  {| env_random_fd := 3;
     env_random_read := fun _ _ => (8, 0x0807060504030201);
     env_io_open := fun _ _ => Some 1%positive;
     env_fido_tx := fun _ _ _ => 0;
     env_fido_rx := fun _ _ _ => (17, scripted_reply 0x1111111111111111 0xCAFEBABE 5) |}.

(** A transport on which every write fails. *)
Definition dead_env : env :=
  {| env_random_fd := 3;
     env_random_read := fun _ _ => (8, 0x0807060504030201);
     env_io_open := fun _ _ => Some 1%positive;
     env_fido_tx := fun _ _ _ => -1;
     env_fido_rx := fun dev _ _ => (-1, dev_attr dev) |}.

(** The session [fido_dev_new] returns. *)
Definition fresh_dev : fido_dev_t :=
  {| dev_nonce := 0; dev_attr := zero_attr; dev_cid := CTAP_CID_BROADCAST;
     dev_io_handle := None;
     dev_info := {| info_path := None; info_manufacturer := None;
                    info_product := None; info_io := hid_io |} |}.

(** [fresh_dev] after a successful handshake with the scripted device. *)
Definition opened_dev : fido_dev_t :=
  rdev (@fido_dev_open libfido2_h release_linux (scripted_env 0xCAFEBABE 5)
          fresh_dev (Some "/dev/hidraw0"%string)).

Definition empty_globals : globals :=
  {| manifest_funcs := []; logging := false |}.

(** Providers that find no device. *)
Definition idle_impl : manifest_impl :=
  fun _ _ _ => {| mr_r := 0; mr_olen := 0; mr_written := [] |}.

(** Provider 1 finds two devices (as many as fit), provider 2 fails with
    [FIDO_ERR_INTERNAL], every other provider finds none. *)
Definition sample_impl : manifest_impl :=
  fun f _ cap =>
    match f with
    | user_manifest_func 1 =>
      let n := Z.min 2 cap in
      {| mr_r := 0; mr_olen := n;
         mr_written := repeat zero_dev_info (Z.to_nat n) |}
    | user_manifest_func 2 => {| mr_r := -9; mr_olen := 0; mr_written := [] |}
    | _ => {| mr_r := 0; mr_olen := 0; mr_written := [] |}
    end.

Definition quiet_init : init_env :=
  {| getenv_FIDO_DEBUG := false; init_calloc_ok := true; hid_init_ret := 0 |}.

(** ** Sequences of registrations, and what a run wrote *)

Section Sequences.
Context `{fido_h}.

(** [fido_dev_register_manifest_func] called once per element of
    [calls], each with the outcome of its [calloc]; returns the codes
    the calls returned and the globals afterwards. *)
Fixpoint register_seq (calls : list (bool * dev_manifest_func_t)) (g : globals)
  : list Z * globals :=
  match calls with
  | [] => ([], g)
  | (calloc_succeeds, func) :: rest =>
    let '(r, g1) := fido_dev_register_manifest_func calloc_succeeds func g in
    let '(rs, g2) := register_seq rest g1 in
    (r :: rs, g2)
  end.

(** Whether the provider returned [FIDO_OK] at call [c]. *)
Definition call_ok (impl : manifest_impl) (c : manifest_call) : bool :=
  mr_r (call_ret impl c) =? FIDO_OK.

(** The entries the calls [cs] wrote, in call order. *)
Definition entries_of (impl : manifest_impl) (cs : list manifest_call)
  : list fido_dev_info_t :=
  concat (map (fun c => mr_written (call_ret impl c)) cs).

End Sequences.

(** All four functions of a vtable are there. *)
Definition complete (io : fido_dev_io_t) : Prop :=
  io_open io <> None /\ io_close io <> None /\
  io_read io <> None /\ io_write io <> None.

(** A fuzzing build. *)
Definition fuzz_linux : build :=
  {| FIDO_FUZZ := true; LINUX := true; OSX := false; WIN := false;
     OPENBSD := false; USE_HIDAPI := false |}.

(** The random device cannot be opened. *)
Definition no_random_env : env :=
  {| env_random_fd := -1;
     env_random_read := fun _ _ => (8, 0x0807060504030201);
     env_io_open := fun _ _ => Some 1%positive;
     env_fido_tx := fun _ _ _ => 0;
     env_fido_rx := fun dev _ _ => (17, scripted_reply (dev_nonce dev) 0xCAFEBABE 5) |}.

(** Provider 1 claims seven entries whatever room it is given. *)
Definition overreporting_impl : manifest_impl :=
  fun f _ _ =>
    match f with
    | user_manifest_func 1 => {| mr_r := 0; mr_olen := 7; mr_written := [] |}
    | _ => {| mr_r := 0; mr_olen := 0; mr_written := [] |}
    end.

(** An allocator on which [calloc] succeeds and every [strdup] fails. *)
Definition no_strdup_heap : heap :=
  {| calloc_ok := true; strdup_ok := fun _ => false |}.

Definition good_heap : heap :=
  {| calloc_ok := true; strdup_ok := fun _ => true |}.

(** An entry as a manifest provider fills it in. *)
Definition sample_info : fido_dev_info_t :=
  {| info_path := Some "/dev/hidraw0"%string;
     info_manufacturer := Some "Yubico"%string;
     info_product := Some "YubiKey"%string;
     info_io := hid_io |}.

Definition user_io : fido_dev_io_t :=
  {| io_open := Some (user_io_fn 1); io_close := Some (user_io_fn 2);
     io_read := Some (user_io_fn 3); io_write := Some (user_io_fn 4) |}.

(** * Properties *)

Lemma libfido2_h_errors : @fido_h_errors libfido2_h.
Proof. split; discriminate. Qed.

Lemma fresh_dev_new : fido_dev_new true true = Some fresh_dev.
Proof. reflexivity. Qed.

(** Scenario: INIT handshake against the scripted device. *)
Example init_handshake_scenario :
  let out := @fido_dev_open libfido2_h release_linux (scripted_env 0xCAFEBABE 5)
               fresh_dev (Some "/dev/hidraw0"%string) in
  rcode out = 0 /\
  dev_io_handle (rdev out) = Some 1%positive /\
  dev_cid (rdev out) = 0xCAFEBABE /\
  @fido_dev_is_fido2 libfido2_h (rdev out) = true.
Proof. vm_compute. repeat split; reflexivity. Qed.

Section SessionFacts.
Context `{fido_h} `{!fido_h_errors}.

Lemma eqb_ok_tx : (FIDO_ERR_TX =? FIDO_OK) = false.
Proof. apply Z.eqb_neq, tx_not_ok. Qed.
Lemma eqb_ok_rx : (FIDO_ERR_RX =? FIDO_OK) = false.
Proof. apply Z.eqb_neq, rx_not_ok. Qed.
Lemma eqb_ok_inval : (FIDO_ERR_INVALID_ARGUMENT =? FIDO_OK) = false.
Proof. apply Z.eqb_neq, invalid_argument_not_ok. Qed.
Lemma eqb_ok_internal : (FIDO_ERR_INTERNAL =? FIDO_OK) = false.
Proof. apply Z.eqb_neq, internal_not_ok. Qed.

(** [fido_dev_open_tx] returns [FIDO_OK] only along its last line. *)
Lemma open_tx_ok_inv (e : env) (dev dev1 : fido_dev_t) (path : option string)
    (t1 : list event) :
  fido_dev_open_tx e dev path = (FIDO_OK, dev1, t1) ->
  exists fopen fclose rc n h,
    dev_io_handle dev = None /\
    io_open (info_io (dev_info dev)) = Some fopen /\
    io_close (info_io (dev_info dev)) = Some fclose /\
    obtain_nonce e (dev_nonce dev) = (rc, n) /\ 0 <= rc /\
    env_io_open e fopen path = Some h /\
    dev1 = set_io_handle (set_nonce dev n) (Some h) /\
    let cmd := uint8 (Z.lor CTAP_FRAME_INIT CTAP_CMD_INIT) in
    0 <= env_fido_tx e dev1 cmd (buf_u64 n) /\
    t1 = [EvIoOpen fopen path (Some h);
          EvTx (dev_cid dev) cmd (buf_u64 n) (env_fido_tx e dev1 cmd (buf_u64 n))].
Proof.
  pose proof tx_not_ok. pose proof invalid_argument_not_ok.
  pose proof internal_not_ok.
  unfold fido_dev_open_tx. intros Htx.
  destruct (dev_io_handle dev) eqn:Hh; [inversion Htx; congruence|].
  destruct (io_open (info_io (dev_info dev))) as [fopen|] eqn:Ho;
    [|inversion Htx; congruence].
  destruct (io_close (info_io (dev_info dev))) as [fclose|] eqn:Hc;
    [|inversion Htx; congruence].
  destruct (obtain_nonce e (dev_nonce dev)) as [rc n] eqn:Hn.
  destruct (rc <? 0) eqn:Hrc; [inversion Htx; congruence|].
  simpl in Htx.
  destruct (env_io_open e fopen path) as [h|] eqn:Hopen;
    [|inversion Htx; congruence].
  destruct (env_fido_tx e _ _ _ <? 0) eqn:Hsent; [inversion Htx; congruence|].
  inversion Htx; subst; clear Htx.
  exists fopen, fclose, rc, n, h.
  apply Z.ltb_ge in Hrc. apply Z.ltb_ge in Hsent.
  repeat split; auto.
Qed.

(** A failing [fido_dev_open_tx] on a closed session leaves it closed. *)
Lemma open_tx_error_closed (e : env) (dev : fido_dev_t) (path : option string) :
  dev_io_handle dev = None ->
  rcode (fido_dev_open_tx e dev path) <> FIDO_OK ->
  dev_io_handle (rdev (fido_dev_open_tx e dev path)) = None.
Proof.
  unfold fido_dev_open_tx. intros Hclosed. rewrite Hclosed.
  destruct (io_open (info_io (dev_info dev))); [|auto].
  destruct (io_close (info_io (dev_info dev))); [|auto].
  destruct (obtain_nonce e (dev_nonce dev)) as [rc n].
  destruct (rc <? 0); [auto|]. simpl.
  destruct (env_io_open e i path); [|auto].
  destruct (env_fido_tx e _ _ _ <? 0); simpl; [auto|].
  intros Hne. now contradict Hne.
Qed.

(** [fido_dev_open_rx] either succeeds, keeping the handle and adopting
    the channel id of the reply, or fails with [FIDO_ERR_RX], closing the
    handle through the vtable and clearing it. *)
Lemma open_rx_cases (b : build) (e : env) (dev : fido_dev_t) (ms : Z) :
  let cmd := uint8 (Z.lor CTAP_FRAME_INIT CTAP_CMD_INIT) in
  let n := fst (env_fido_rx e dev cmd ms) in
  let reply := snd (env_fido_rx e dev cmd ms) in
  let out := fido_dev_open_rx b e dev ms in
  (rcode out = FIDO_OK /\
   0 <= n /\ n = sizeof_attr /\
   (FIDO_FUZZ b = false -> attr_nonce reply = dev_nonce dev) /\
   dev_io_handle (rdev out) = dev_io_handle dev /\
   dev_cid (rdev out) = attr_cid reply /\
   rtrace out = [EvRx (dev_cid dev) cmd ms n])
  \/
  (rcode out = FIDO_ERR_RX /\
   (n < 0 \/ n <> sizeof_attr \/
    (FIDO_FUZZ b = false /\ attr_nonce reply <> dev_nonce dev)) /\
   dev_io_handle (rdev out) = None /\
   rtrace out = [EvRx (dev_cid dev) cmd ms n;
                 EvIoClose (io_close (info_io (dev_info dev))) (dev_io_handle dev)]).
Proof.
  intros cmd n reply out. subst out n reply. unfold fido_dev_open_rx. fold cmd.
  destruct (env_fido_rx e dev cmd ms) as [n reply]. simpl fst. simpl snd.
  destruct (n <? 0) eqn:Hneg.
  { right. apply Z.ltb_lt in Hneg. simpl. repeat split; auto. }
  apply Z.ltb_ge in Hneg.
  destruct (n =? sizeof_attr) eqn:Hsize; simpl negb; simpl orb.
  2:{ right. apply Z.eqb_neq in Hsize.
      destruct (FIDO_FUZZ b); simpl; repeat split; auto. }
  apply Z.eqb_eq in Hsize.
  destruct (FIDO_FUZZ b) eqn:Hfuzz; simpl.
  - rewrite Z.eqb_refl. simpl. left. repeat split; auto. discriminate.
  - destruct (attr_nonce reply =? dev_nonce dev) eqn:Hnonce; simpl.
    + apply Z.eqb_eq in Hnonce. left. repeat split; auto.
    + apply Z.eqb_neq in Hnonce. right. repeat split; auto.
Qed.

(** [open_wait] returns what its two halves return. *)
Lemma open_wait_tx_error (b : build) (e : env) (dev : fido_dev_t)
    (path : option string) (ms : Z) :
  rcode (fido_dev_open_tx e dev path) <> FIDO_OK ->
  open_wait b e dev path ms = fido_dev_open_tx e dev path.
Proof.
  unfold open_wait. destruct (fido_dev_open_tx e dev path) as [[r d] t].
  unfold rcode. simpl. intros Hne. apply Z.eqb_neq in Hne. now rewrite Hne.
Qed.

Lemma open_wait_tx_ok (b : build) (e : env) (dev dev1 : fido_dev_t)
    (path : option string) (ms : Z) (t1 : list event) :
  fido_dev_open_tx e dev path = (FIDO_OK, dev1, t1) ->
  rcode (open_wait b e dev path ms) = rcode (fido_dev_open_rx b e dev1 ms) /\
  rdev (open_wait b e dev path ms) = rdev (fido_dev_open_rx b e dev1 ms) /\
  rtrace (open_wait b e dev path ms) = t1 ++ rtrace (fido_dev_open_rx b e dev1 ms).
Proof.
  unfold open_wait. intros ->. rewrite Z.eqb_refl. simpl.
  destruct (fido_dev_open_rx b e dev1 ms) as [[r d] t].
  unfold rcode, rdev, rtrace. simpl.
  destruct (r =? FIDO_OK) eqn:Hr; simpl; [|auto].
  apply Z.eqb_eq in Hr. auto.
Qed.

(** A handshake in a cooperative environment succeeds: the session ends
    up open, on the channel the device assigned. *)
Lemma open_wait_succeeds (b : build) (e : env) (dev : fido_dev_t)
    (path : option string) (ms : Z) :
  dev_io_handle dev = None ->
  cooperative e dev path ms ->
  rcode (open_wait b e dev path ms) = FIDO_OK /\
  dev_io_handle (rdev (open_wait b e dev path ms)) <> None.
Proof.
  intros Hclosed (fopen & fclose & n & h & reply & Ho & Hc & Hn & Hopen & Hrest).
  simpl in Hrest. destruct Hrest as (Htx & Hrx & Hsize & Hecho).
  set (cmd := uint8 (Z.lor CTAP_FRAME_INIT CTAP_CMD_INIT)) in *.
  set (dev2 := set_io_handle (set_nonce dev n) (Some h)) in *.
  assert (Hok : fido_dev_open_tx e dev path =
                (FIDO_OK, dev2,
                 [EvIoOpen fopen path (Some h);
                  EvTx (dev_cid dev) cmd (buf_u64 n)
                    (env_fido_tx e dev2 cmd (buf_u64 n))])).
  { unfold fido_dev_open_tx. rewrite Hclosed, Ho, Hc, Hn. simpl.
    rewrite Hopen. fold cmd dev2. apply Z.ltb_ge in Htx. now rewrite Htx. }
  destruct (open_wait_tx_ok b e dev _ path ms _ Hok) as (Hr & Hd & _).
  rewrite Hr, Hd.
  pose proof (open_rx_cases b e dev2 ms) as Hcases. cbv zeta in Hcases.
  fold cmd in Hcases. destruct Hcases as [Hgood | Hbad].
  - destruct Hgood as (Hcode & _ & _ & _ & Hh & _). rewrite Hh. split; [auto|].
    discriminate.
  - exfalso. destruct Hbad as (_ & Hwhy & _). rewrite Hrx in Hwhy. simpl in Hwhy.
    destruct Hwhy as [Hlt | [Hne | [_ Hne]]]; [lia | congruence | ].
    apply Hne. subst dev2. simpl. auto.
Qed.

Lemma open_wait_error_closed (b : build) (e : env) (dev : fido_dev_t)
    (path : option string) (ms : Z) :
  dev_io_handle dev = None ->
  rcode (open_wait b e dev path ms) <> FIDO_OK ->
  dev_io_handle (rdev (open_wait b e dev path ms)) = None.
Proof.
  intros Hclosed Herr.
  destruct (Z.eq_dec (rcode (fido_dev_open_tx e dev path)) FIDO_OK) as [Hok | Hne].
  - destruct (fido_dev_open_tx e dev path) as [[r dev1] t1] eqn:Htx.
    unfold rcode in Hok. simpl in Hok. subst r.
    destruct (open_wait_tx_ok b e dev dev1 path ms t1 Htx) as (Hr & Hd & _).
    rewrite Hr in Herr. rewrite Hd.
    pose proof (open_rx_cases b e dev1 ms) as Hcases. cbv zeta in Hcases.
    destruct Hcases as [(Hcode & _) | (_ & _ & Hh & _)]; [contradiction | exact Hh].
  - rewrite (open_wait_tx_error b e dev path ms Hne).
    now apply open_tx_error_closed.
Qed.

(** Neither half of the handshake touches [dev_info]. *)
Lemma open_tx_info (e : env) (dev : fido_dev_t) (path : option string) :
  dev_info (rdev (fido_dev_open_tx e dev path)) = dev_info dev.
Proof.
  unfold fido_dev_open_tx.
  destruct (dev_io_handle dev); [reflexivity|].
  destruct (io_open (info_io (dev_info dev))); [|reflexivity].
  destruct (io_close (info_io (dev_info dev))); [|reflexivity].
  destruct (obtain_nonce e (dev_nonce dev)) as [rc n].
  destruct (rc <? 0); [reflexivity|]. simpl.
  destruct (env_io_open e i path); [|reflexivity].
  destruct (env_fido_tx e _ _ _ <? 0); reflexivity.
Qed.

Lemma open_rx_info (b : build) (e : env) (dev : fido_dev_t) (ms : Z) :
  dev_info (rdev (fido_dev_open_rx b e dev ms)) = dev_info dev.
Proof.
  unfold fido_dev_open_rx.
  destruct (env_fido_rx e dev _ ms) as [n reply].
  destruct (n <? 0); [reflexivity|].
  destruct (FIDO_FUZZ b);
    match goal with |- context [if ?c then _ else _] => destruct c end;
    reflexivity.
Qed.

Lemma open_wait_info (b : build) (e : env) (dev : fido_dev_t)
    (path : option string) (ms : Z) :
  dev_info (rdev (open_wait b e dev path ms)) = dev_info dev.
Proof.
  pose proof (open_tx_info e dev path) as Htxi.
  unfold open_wait.
  destruct (fido_dev_open_tx e dev path) as [[r dev1] t1].
  unfold rdev in Htxi. simpl in Htxi.
  destruct (negb (r =? FIDO_OK)); [exact Htxi|].
  pose proof (open_rx_info b e dev1 ms) as Hrxi.
  destruct (fido_dev_open_rx b e dev1 ms) as [[r' dev2] t2].
  unfold rdev in Hrxi. simpl in Hrxi.
  destruct (negb (r' =? FIDO_OK)); unfold rdev; simpl; congruence.
Qed.

(** A handle in the session after [open_wait] was there before, or was
    opened through a vtable that has a [close]. *)
Lemma open_wait_handle (b : build) (e : env) (dev : fido_dev_t)
    (path : option string) (ms : Z) :
  dev_io_handle (rdev (open_wait b e dev path ms)) <> None ->
  dev_io_handle dev <> None \/ io_close (info_io (dev_info dev)) <> None.
Proof.
  intros Hopen.
  destruct (Z.eq_dec (rcode (fido_dev_open_tx e dev path)) FIDO_OK) as [Hok | Hne].
  - destruct (fido_dev_open_tx e dev path) as [[r dev1] t1] eqn:Htx.
    unfold rcode in Hok. simpl in Hok. subst r.
    destruct (open_tx_ok_inv e dev dev1 path t1 Htx)
      as (fopen & fclose & rc & n & h & _ & _ & Hc & _).
    right. congruence.
  - left. intros Hclosed. apply Hopen.
    rewrite (open_wait_tx_error b e dev path ms Hne).
    now apply open_tx_error_closed.
Qed.

(** In every session the API can produce, an open handle comes with a
    [close] function in the vtable. *)
Lemma reachable_has_close (b : build) (dev : fido_dev_t) :
  reachable b dev ->
  dev_io_handle dev <> None -> io_close (info_io (dev_info dev)) <> None.
Proof.
  induction 1 as [dev_ok info_ok d Hnew | dev_ok m info d Hnew
                 | e d path _ IH | e d _ IH | d _ IH | e d _ IH
                 | d io _ IH | d _ IH | d _ IH].
  - unfold fido_dev_new in Hnew.
    destruct dev_ok, info_ok; simpl in Hnew; inversion Hnew; subst.
    simpl. congruence.
  - unfold fido_dev_new_with_info in Hnew.
    destruct dev_ok; simpl in Hnew; [|discriminate].
    destruct (info_io info) as [[o|] [c|] [r|] [w|]]; try discriminate.
    destruct (copy_fido_dev_info m info); inversion Hnew; subst.
    simpl. congruence.
  - unfold fido_dev_open, fido_dev_open_wait. intros Hopen.
    rewrite open_wait_info.
    destruct (open_wait_handle b e d path (-1) Hopen); auto.
  - unfold fido_dev_open_with_info, fido_dev_open_wait_with_info. intros Hopen.
    rewrite open_wait_info.
    destruct (open_wait_handle b e d _ (-1) Hopen); auto.
  - unfold fido_dev_close.
    destruct (dev_io_handle d) eqn:Hh, (io_close (info_io (dev_info d))) eqn:Hc;
      unfold rdev; simpl; rewrite ?Hh, ?Hc; intros Hx;
      first [now contradict Hx | apply IH; discriminate].
  - unfold fido_dev_cancel.
    destruct (env_fido_tx e d _ _ <? 0); exact IH.
  - unfold fido_dev_set_io_functions.
    destruct (dev_io_handle d) eqn:Hh; [simpl; intros _; apply IH; discriminate|].
    destruct io as [[[o|] [c|] [r|] [w|]]|]; simpl; rewrite ?Hh; intros Hx;
      now contradict Hx.
  - exact IH.
  - exact IH.
Qed.

(** C1: when the INIT request has gone out and the reply's nonce differs
    from the nonce sent, or the reply does not have the size of the
    attribute structure, [fido_dev_open] (not a FIDO_FUZZ build) returns
    [FIDO_ERR_RX]; the handle that was opened is closed through the
    vtable's [close] and the session's handle is NULL. *)
Theorem open_rejects_bad_nonce (b : build) (e : env) (dev dev1 : fido_dev_t)
    (path : option string) (t1 : list event) :
  FIDO_FUZZ b = false ->
  fido_dev_open_tx e dev path = (FIDO_OK, dev1, t1) ->
  let cmd := uint8 (Z.lor CTAP_FRAME_INIT CTAP_CMD_INIT) in
  let n := fst (env_fido_rx e dev1 cmd (-1)) in
  let reply := snd (env_fido_rx e dev1 cmd (-1)) in
  attr_nonce reply <> dev_nonce dev1 \/ n <> sizeof_attr ->
  let out := fido_dev_open b e dev path in
  rcode out = FIDO_ERR_RX /\
  rcode out <> FIDO_OK /\
  dev_io_handle (rdev out) = None /\
  exists fopen fclose h r,
    io_close (info_io (dev_info dev)) = Some fclose /\
    dev_io_handle dev1 = Some h /\
    t1 = [EvIoOpen fopen path (Some h);
          EvTx (dev_cid dev) cmd (buf_u64 (dev_nonce dev1)) r] /\
    rtrace out = t1 ++ [EvRx (dev_cid dev1) cmd (-1) n;
                        EvIoClose (Some fclose) (Some h)].
Proof.
  intros Hfuzz Htx cmd n reply Hbad out. subst out.
  unfold fido_dev_open, fido_dev_open_wait.
  destruct (open_wait_tx_ok b e dev dev1 path (-1) t1 Htx) as (Hr & Hd & Ht).
  rewrite Hr, Hd, Ht.
  destruct (open_tx_ok_inv e dev dev1 path t1 Htx)
    as (fopen & fclose & rc & nn & h & _ & _ & Hc & _ & _ & _ & Hdev1 & _ & Ht1).
  pose proof (open_rx_cases b e dev1 (-1)) as Hcases. cbv zeta in Hcases.
  fold cmd n reply in Hcases.
  destruct Hcases as [(_ & _ & Hsize & Hecho & _) | (Hcode & _ & Hh & Htr)].
  { exfalso. destruct Hbad as [Hnonce | Hlen]; auto. }
  rewrite Hcode, Hh, Htr. repeat split; auto using rx_not_ok.
  exists fopen, fclose, h, (env_fido_tx e dev1 cmd (buf_u64 nn)).
  assert (Hn1 : dev_nonce dev1 = nn) by (subst dev1; reflexivity).
  assert (Hh1 : dev_io_handle dev1 = Some h) by (subst dev1; reflexivity).
  assert (Hi1 : dev_info dev1 = dev_info dev) by (subst dev1; reflexivity).
  rewrite Hn1, Hh1, Hi1, Hc. repeat split; auto.
Qed.

(** C4: on a session that is not open, whenever [fido_dev_open] or
    [fido_dev_open_with_info] returns an error, the session's handle is
    NULL afterwards, and a later open on it goes through in any
    environment in which the handshake can go through. *)
Theorem open_error_leaves_closed (b : build) (e : env) (dev : fido_dev_t)
    (path : option string) :
  dev_io_handle dev = None ->
  (let out := fido_dev_open b e dev path in
   rcode out <> FIDO_OK ->
   dev_io_handle (rdev out) = None /\
   forall e' path', cooperative e' (rdev out) path' (-1) ->
     rcode (fido_dev_open b e' (rdev out) path') = FIDO_OK) /\
  (let out := fido_dev_open_with_info b e dev in
   rcode out <> FIDO_OK ->
   dev_io_handle (rdev out) = None /\
   forall e', cooperative e' (rdev out) (info_path (dev_info (rdev out))) (-1) ->
     rcode (fido_dev_open_with_info b e' (rdev out)) = FIDO_OK).
Proof.
  intros Hclosed. split; intros out Herr; subst out.
  - assert (Hnull : dev_io_handle (rdev (fido_dev_open b e dev path)) = None)
      by now apply open_wait_error_closed.
    split; [exact Hnull|]. intros e' path' Hco.
    now apply open_wait_succeeds.
  - assert (Hnull : dev_io_handle (rdev (fido_dev_open_with_info b e dev)) = None)
      by now apply open_wait_error_closed.
    split; [exact Hnull|]. intros e' Hco.
    now apply open_wait_succeeds.
Qed.

(** C5: on a session that is already open, [fido_dev_open] (and
    [fido_dev_open_with_info]) returns [FIDO_ERR_INVALID_ARGUMENT],
    leaves every field of the session as it was, and makes no call
    through the vtable or the transport. *)
Theorem open_twice_rejected (b : build) (e : env) (dev : fido_dev_t)
    (path : option string) (h : handle) :
  dev_io_handle dev = Some h ->
  fido_dev_open b e dev path = (FIDO_ERR_INVALID_ARGUMENT, dev, []) /\
  fido_dev_open_with_info b e dev = (FIDO_ERR_INVALID_ARGUMENT, dev, []) /\
  FIDO_ERR_INVALID_ARGUMENT <> FIDO_OK.
Proof.
  intros Hopen.
  assert (Htx : forall p, fido_dev_open_tx e dev p =
                          (FIDO_ERR_INVALID_ARGUMENT, dev, [])).
  { intros p. unfold fido_dev_open_tx. now rewrite Hopen. }
  assert (Hw : forall p ms, open_wait b e dev p ms =
                            (FIDO_ERR_INVALID_ARGUMENT, dev, [])).
  { intros p ms. rewrite open_wait_tx_error; [apply Htx|].
    rewrite Htx. apply invalid_argument_not_ok. }
  repeat split; [apply Hw | apply Hw | apply invalid_argument_not_ok].
Qed.

(** C6: [fido_dev_cancel] makes exactly one call, a [fido_tx] of the
    command [CTAP_FRAME_INIT | CTAP_CMD_CANCEL] with an empty payload on
    the session's current channel id, and no [fido_rx]; it leaves the
    session as it was; it returns [FIDO_OK] when the transmission
    succeeds and [FIDO_ERR_TX] exactly when it fails; on a session fresh
    from [fido_dev_new] or [fido_dev_new_with_info] the channel id of
    that call is the broadcast channel 0xFFFFFFFF. *)
Theorem cancel_sends_one_frame (e : env) (dev : fido_dev_t) :
  let out := fido_dev_cancel e dev in
  let r := env_fido_tx e dev 0x91 buf_null in
  rtrace out = [EvTx (dev_cid dev) 0x91 buf_null r] /\
  rdev out = dev /\
  (0 <= r -> rcode out = FIDO_OK) /\
  (rcode out = FIDO_ERR_TX <-> r < 0) /\
  (forall dev_ok info_ok d, fido_dev_new dev_ok info_ok = Some d ->
     rtrace (fido_dev_cancel e d) =
     [EvTx 0xFFFFFFFF 0x91 buf_null (env_fido_tx e d 0x91 buf_null)]) /\
  (forall dev_ok m info d, fido_dev_new_with_info dev_ok m info = Some d ->
     rtrace (fido_dev_cancel e d) =
     [EvTx 0xFFFFFFFF 0x91 buf_null (env_fido_tx e d 0x91 buf_null)]).
Proof.
  assert (Hcmd : uint8 (Z.lor CTAP_FRAME_INIT CTAP_CMD_CANCEL) = 0x91)
    by reflexivity.
  assert (Htrace : forall d, rtrace (fido_dev_cancel e d) =
            [EvTx (dev_cid d) 0x91 buf_null (env_fido_tx e d 0x91 buf_null)]).
  { intros d. unfold fido_dev_cancel. rewrite Hcmd.
    destruct (env_fido_tx e d 145 buf_null <? 0); reflexivity. }
  assert (Hnew1 : forall dev_ok info_ok d,
            fido_dev_new dev_ok info_ok = Some d -> dev_cid d = 0xFFFFFFFF).
  { intros dev_ok info_ok d Hnew. unfold fido_dev_new in Hnew.
    destruct dev_ok, info_ok; inversion Hnew; reflexivity. }
  assert (Hnew2 : forall dev_ok m info d,
            fido_dev_new_with_info dev_ok m info = Some d ->
            dev_cid d = 0xFFFFFFFF).
  { intros dev_ok m info d Hnew. unfold fido_dev_new_with_info in Hnew.
    destruct dev_ok; simpl in Hnew; [|discriminate].
    destruct (info_io info) as [[o|] [c|] [rd|] [w|]]; try discriminate.
    destruct (copy_fido_dev_info m info); inversion Hnew; reflexivity. }
  intros out r. subst out r. split; [apply Htrace|].
  assert (Hout : fido_dev_cancel e dev =
            ((if env_fido_tx e dev 0x91 buf_null <? 0
              then FIDO_ERR_TX else FIDO_OK), dev,
             [EvTx (dev_cid dev) 0x91 buf_null (env_fido_tx e dev 0x91 buf_null)])).
  { unfold fido_dev_cancel. rewrite Hcmd.
    destruct (env_fido_tx e dev 145 buf_null <? 0); reflexivity. }
  rewrite Hout. unfold rcode, rdev. simpl.
  split; [reflexivity|].
  destruct (env_fido_tx e dev 145 buf_null <? 0) eqn:Hr.
  - apply Z.ltb_lt in Hr. repeat split; try lia.
    + intros dev_ok info_ok d Hnew. rewrite Htrace.
      now rewrite (Hnew1 _ _ _ Hnew).
    + intros dev_ok m info d Hnew. rewrite Htrace.
      now rewrite (Hnew2 _ _ _ _ Hnew).
  - apply Z.ltb_ge in Hr. repeat split; try lia.
    + intros Heq. symmetry in Heq. now apply tx_not_ok in Heq.
    + intros dev_ok info_ok d Hnew. rewrite Htrace.
      now rewrite (Hnew1 _ _ _ Hnew).
    + intros dev_ok m info d Hnew. rewrite Htrace.
      now rewrite (Hnew2 _ _ _ _ Hnew).
Qed.

(** C7: with a handle open, [fido_dev_set_io_functions] returns
    [FIDO_ERR_INVALID_ARGUMENT] and leaves the session, its vtable
    included, as it was; with no handle open and four non-null
    functions, it returns [FIDO_OK] and the vtable is the supplied one,
    the other fields being untouched. *)
Theorem set_io_functions_guarded (dev : fido_dev_t) (io : option fido_dev_io_t) :
  (dev_io_handle dev <> None ->
   fido_dev_set_io_functions dev io = (FIDO_ERR_INVALID_ARGUMENT, dev)) /\
  (dev_io_handle dev = None ->
   forall o c r w,
     io = Some {| io_open := Some o; io_close := Some c;
                  io_read := Some r; io_write := Some w |} ->
     let out := fido_dev_set_io_functions dev io in
     fst out = FIDO_OK /\
     Some (info_io (dev_info (snd out))) = io /\
     snd out = set_io dev (info_io (dev_info (snd out)))) /\
  FIDO_ERR_INVALID_ARGUMENT <> FIDO_OK.
Proof.
  unfold fido_dev_set_io_functions. split; [|split].
  - destruct (dev_io_handle dev); [reflexivity | congruence].
  - intros Hclosed o c r w ->. rewrite Hclosed. simpl. auto.
  - apply invalid_argument_not_ok.
Qed.

(** C8: on a session the API can produce, [fido_dev_close] with a handle
    open calls the vtable's [close] on the handle, sets the session's
    handle to NULL and returns [FIDO_OK]; with no handle open it returns
    [FIDO_ERR_INVALID_ARGUMENT], changes nothing and calls nothing. *)
Theorem close_releases_handle (b : build) (dev : fido_dev_t) :
  reachable b dev ->
  (forall h, dev_io_handle dev = Some h ->
     exists fclose,
       io_close (info_io (dev_info dev)) = Some fclose /\
       fido_dev_close dev =
         (FIDO_OK, set_io_handle dev None, [EvIoClose (Some fclose) (Some h)]) /\
       dev_io_handle (rdev (fido_dev_close dev)) = None) /\
  (dev_io_handle dev = None ->
     fido_dev_close dev = (FIDO_ERR_INVALID_ARGUMENT, dev, [])) /\
  FIDO_ERR_INVALID_ARGUMENT <> FIDO_OK.
Proof.
  intros Hreach. unfold fido_dev_close. repeat split.
  - intros h Hopen.
    assert (Hc : io_close (info_io (dev_info dev)) <> None).
    { apply (reachable_has_close b); [exact Hreach | congruence]. }
    destruct (io_close (info_io (dev_info dev))) as [fclose|]; [|congruence].
    exists fclose. rewrite Hopen. repeat split.
  - intros Hclosed. now rewrite Hclosed.
  - apply invalid_argument_not_ok.
Qed.

End SessionFacts.

(** ** The CBOR capability bit *)

Lemma uint8_range (z : Z) : 0 <= uint8 z < 256.
Proof. unfold uint8. apply Z.mod_pos_bound. reflexivity. Qed.

Lemma testbit_uint8 (z i : Z) :
  0 <= i -> Z.testbit (uint8 z) i = (i <? 8) && Z.testbit z i.
Proof.
  intros Hi. unfold uint8. destruct (i <? 8) eqn:Hlt.
  - apply Z.ltb_lt in Hlt. now rewrite Z.mod_pow2_bits_low by lia.
  - apply Z.ltb_ge in Hlt. now rewrite Z.mod_pow2_bits_high by lia.
Qed.

Lemma testbit_byte_high (f i : Z) :
  0 <= f < 256 -> 8 <= i -> Z.testbit f i = false.
Proof.
  intros Hf Hi. rewrite <- (Z.mod_small f (2 ^ 8)) by (simpl; lia).
  apply Z.mod_pow2_bits_high. lia.
Qed.

Lemma land_pow2 (f k : Z) :
  0 <= k -> Z.land f (2 ^ k) = if Z.testbit f k then 2 ^ k else 0.
Proof.
  intros Hk. apply Z.bits_inj'. intros i Hi.
  rewrite Z.land_spec, Z.pow2_bits_eqb by lia.
  destruct (Z.eqb_spec k i) as [-> | Hne].
  - destruct (Z.testbit f i); simpl.
    + rewrite Z.pow2_bits_eqb by lia. now rewrite Z.eqb_refl.
    + now rewrite Z.bits_0.
  - rewrite andb_false_r. destruct (Z.testbit f k).
    + rewrite Z.pow2_bits_eqb by lia. symmetry. now apply Z.eqb_neq.
    + now rewrite Z.bits_0.
Qed.

Section CapabilityFacts.
Context `{fido_h}.
Variable k : Z.
Hypothesis k_in_byte : 0 <= k < 8.
Hypothesis cbor_is_bit_k : FIDO_CAP_CBOR = 2 ^ k.

Lemma is_fido2_testbit (dev : fido_dev_t) :
  fido_dev_is_fido2 dev = Z.testbit (attr_flags (dev_attr dev)) k.
Proof.
  unfold fido_dev_is_fido2. rewrite cbor_is_bit_k, land_pow2 by lia.
  destruct (Z.testbit (attr_flags (dev_attr dev)) k); [|reflexivity].
  assert (0 < 2 ^ k) by (apply Z.pow_pos_nonneg; lia).
  destruct (Z.eqb_spec (2 ^ k) 0); [lia | reflexivity].
Qed.

Lemma force_u2f_bits (dev : fido_dev_t) (i : Z) :
  0 <= attr_flags (dev_attr dev) < 256 ->
  Z.testbit (attr_flags (dev_attr (fido_dev_force_u2f dev))) i =
  Z.testbit (attr_flags (dev_attr dev)) i && negb (i =? k).
Proof.
  intros Hf. destruct (Z.ltb_spec i 0) as [Hneg | Hi].
  { now rewrite !Z.testbit_neg_r by lia. }
  simpl. rewrite testbit_uint8, Z.land_spec, Z.lnot_spec by lia.
  rewrite cbor_is_bit_k, Z.pow2_bits_eqb by lia. rewrite (Z.eqb_sym k i).
  destruct (Z.ltb_spec i 8); simpl; [reflexivity|].
  now rewrite (testbit_byte_high _ i Hf) by lia.
Qed.

Lemma force_fido2_bits (dev : fido_dev_t) (i : Z) :
  0 <= attr_flags (dev_attr dev) < 256 ->
  Z.testbit (attr_flags (dev_attr (fido_dev_force_fido2 dev))) i =
  Z.testbit (attr_flags (dev_attr dev)) i || (i =? k).
Proof.
  intros Hf. destruct (Z.ltb_spec i 0) as [Hneg | Hi].
  { rewrite !Z.testbit_neg_r by lia. destruct (Z.eqb_spec i k); [lia | reflexivity]. }
  simpl. rewrite testbit_uint8, Z.lor_spec by lia.
  rewrite cbor_is_bit_k, Z.pow2_bits_eqb by lia. rewrite (Z.eqb_sym k i).
  destruct (Z.ltb_spec i 8); simpl; [reflexivity|].
  rewrite (testbit_byte_high _ i Hf) by lia.
  destruct (Z.eqb_spec i k); [lia | reflexivity].
Qed.

Lemma force_u2f_range (dev : fido_dev_t) :
  0 <= attr_flags (dev_attr (fido_dev_force_u2f dev)) < 256.
Proof. simpl. apply uint8_range. Qed.

Lemma force_fido2_range (dev : fido_dev_t) :
  0 <= attr_flags (dev_attr (fido_dev_force_fido2 dev)) < 256.
Proof. simpl. apply uint8_range. Qed.

(** A session obtained from another by replacing the flags with the
    same flags is that session. *)
Lemma same_session_but_flags (d2 d3 : fido_dev_t) :
  set_attr d2 (set_flags (dev_attr d2) (attr_flags (dev_attr d3))) = d3 ->
  attr_flags (dev_attr d3) = attr_flags (dev_attr d2) ->
  d3 = d2.
Proof.
  intros H23 Hflags. rewrite <- H23, Hflags.
  destruct d2 as [n [an ac ap ama ami ab af] c h inf]. reflexivity.
Qed.

(** C9: [fido_dev_is_fido2] is the CBOR bit of the flags; it is false
    after [fido_dev_force_u2f] and true after [fido_dev_force_fido2];
    both are idempotent, leave every other bit of the flags as it was,
    and leave every other field of the session as it was. *)
Theorem cbor_capability_bit (dev : fido_dev_t) :
  0 <= attr_flags (dev_attr dev) < 256 ->
  fido_dev_is_fido2 dev = Z.testbit (fido_dev_flags dev) k /\
  fido_dev_is_fido2 (fido_dev_force_u2f dev) = false /\
  fido_dev_is_fido2 (fido_dev_force_fido2 dev) = true /\
  fido_dev_force_u2f (fido_dev_force_u2f dev) = fido_dev_force_u2f dev /\
  fido_dev_force_fido2 (fido_dev_force_fido2 dev) = fido_dev_force_fido2 dev /\
  (forall i, i <> k ->
     Z.testbit (fido_dev_flags (fido_dev_force_u2f dev)) i =
       Z.testbit (fido_dev_flags dev) i /\
     Z.testbit (fido_dev_flags (fido_dev_force_fido2 dev)) i =
       Z.testbit (fido_dev_flags dev) i) /\
  fido_dev_force_u2f dev =
    set_attr dev (set_flags (dev_attr dev)
                    (fido_dev_flags (fido_dev_force_u2f dev))) /\
  fido_dev_force_fido2 dev =
    set_attr dev (set_flags (dev_attr dev)
                    (fido_dev_flags (fido_dev_force_fido2 dev))).
Proof.
  intros Hf. unfold fido_dev_flags.
  split; [apply is_fido2_testbit|].
  split. { rewrite is_fido2_testbit, force_u2f_bits by exact Hf.
           rewrite Z.eqb_refl. apply andb_false_r. }
  split. { rewrite is_fido2_testbit, force_fido2_bits by exact Hf.
           rewrite Z.eqb_refl. apply orb_true_r. }
  split.
  { assert (Hflags : attr_flags (dev_attr (fido_dev_force_u2f (fido_dev_force_u2f dev)))
                     = attr_flags (dev_attr (fido_dev_force_u2f dev))).
    { apply Z.bits_inj. intros i.
      rewrite (force_u2f_bits (fido_dev_force_u2f dev)) by apply force_u2f_range.
      rewrite force_u2f_bits by exact Hf.
      now rewrite <- andb_assoc, andb_diag. }
    apply same_session_but_flags; [reflexivity | exact Hflags]. }
  split.
  { assert (Hflags : attr_flags (dev_attr (fido_dev_force_fido2 (fido_dev_force_fido2 dev)))
                     = attr_flags (dev_attr (fido_dev_force_fido2 dev))).
    { apply Z.bits_inj. intros i.
      rewrite (force_fido2_bits (fido_dev_force_fido2 dev))
        by apply force_fido2_range.
      rewrite force_fido2_bits by exact Hf.
      now rewrite <- orb_assoc, orb_diag. }
    apply same_session_but_flags; [reflexivity | exact Hflags]. }
  split.
  { intros i Hi. rewrite force_u2f_bits, force_fido2_bits by exact Hf.
    apply Z.eqb_neq in Hi. rewrite Hi. simpl.
    now rewrite andb_true_r, orb_false_r. }
  split; reflexivity.
Qed.

End CapabilityFacts.

(** ** The provider registry *)

Lemma size_t_small (z : Z) : 0 <= z < 2 ^ 64 -> size_t z = z.
Proof. intros Hz. unfold size_t. now apply Z.mod_small. Qed.

Section RegistryFacts.
Context `{fido_h}.

Lemma register_all_funcs (fs : list dev_manifest_func_t) (g : globals) :
  manifest_funcs (register_all fs g) = rev fs ++ manifest_funcs g.
Proof.
  unfold register_all. revert g.
  induction fs as [|f fs IH]; intros g; simpl; [reflexivity|].
  rewrite IH. simpl. now rewrite <- app_assoc.
Qed.

(** One step of the loop, by the provider's answer. *)
Lemma manifest_loop_step (impl : manifest_impl) (m_func : dev_manifest_func_t)
    (next : list dev_manifest_func_t) (devlist : list fido_dev_info_t)
    (ilen olen : Z) :
  let cap := size_t (ilen - olen) in
  let ret := impl m_func olen cap in
  let devlist' := list_inserts (Z.to_nat olen) (mr_written ret) devlist in
  let call := {| mc_func := m_func; mc_off := olen; mc_cap := cap |} in
  let olen' := size_t (olen + mr_olen ret) in
  let out := manifest_loop impl (m_func :: next) devlist ilen olen in
  (mr_r ret <> FIDO_OK /\
   out = {| mo_r := mr_r ret; mo_devlist := devlist'; mo_olen := olen;
            mo_calls := [call] |})
  \/
  (mr_r ret = FIDO_OK /\ olen' = ilen /\
   out = {| mo_r := FIDO_OK; mo_devlist := devlist'; mo_olen := olen';
            mo_calls := [call] |})
  \/
  (mr_r ret = FIDO_OK /\ olen' <> ilen /\
   out = called call (manifest_loop impl next devlist' ilen olen')).
Proof.
  simpl.
  destruct (Z.eqb_spec (mr_r (impl m_func olen (size_t (ilen - olen)))) FIDO_OK)
    as [Hok | Herr]; [|left; auto].
  right.
  destruct (Z.eqb_spec
              (size_t (olen + mr_olen (impl m_func olen (size_t (ilen - olen)))))
              ilen) as [Hfull | Hroom]; [left | right]; auto.
Qed.

(** The providers called are an initial segment of the registry. *)
Lemma manifest_loop_prefix (impl : manifest_impl)
    (curr : list dev_manifest_func_t) (devlist : list fido_dev_info_t)
    (ilen olen : Z) :
  invoked (manifest_loop impl curr devlist ilen olen) `prefix_of` curr.
Proof.
  revert devlist olen.
  induction curr as [|m_func next IH]; intros devlist olen.
  - apply prefix_nil.
  - destruct (manifest_loop_step impl m_func next devlist ilen olen)
      as [(_ & ->) | [(_ & _ & ->) | (_ & _ & ->)]]; unfold invoked; simpl.
    + apply prefix_cons, prefix_nil.
    + apply prefix_cons, prefix_nil.
    + apply prefix_cons, IH.
Qed.

(** The first provider of a non-empty registry is always called. *)
Lemma manifest_loop_first (impl : manifest_impl) (m_func : dev_manifest_func_t)
    (next : list dev_manifest_func_t) (devlist : list fido_dev_info_t)
    (ilen olen : Z) :
  exists rest,
    mo_calls (manifest_loop impl (m_func :: next) devlist ilen olen) =
    {| mc_func := m_func; mc_off := olen; mc_cap := size_t (ilen - olen) |} :: rest.
Proof.
  destruct (manifest_loop_step impl m_func next devlist ilen olen)
    as [(_ & ->) | [(_ & _ & ->) | (_ & _ & ->)]]; simpl; eauto.
Qed.

(** A run that ends with [FIDO_OK] short of the capacity has called every
    provider. *)
Lemma manifest_loop_all (impl : manifest_impl)
    (curr : list dev_manifest_func_t) (devlist : list fido_dev_info_t)
    (ilen olen : Z) :
  mo_r (manifest_loop impl curr devlist ilen olen) = FIDO_OK ->
  mo_olen (manifest_loop impl curr devlist ilen olen) <> ilen ->
  invoked (manifest_loop impl curr devlist ilen olen) = curr.
Proof.
  revert devlist olen.
  induction curr as [|m_func next IH]; intros devlist olen; [reflexivity|].
  destruct (manifest_loop_step impl m_func next devlist ilen olen)
    as [(Herr & ->) | [(_ & Hfull & ->) | (_ & _ & ->)]];
    unfold invoked; simpl; intros Hr Holen.
  - contradiction.
  - contradiction.
  - f_equal. now apply IH.
Qed.

(** C2: registration prepends.  After [f1, ..., fn] have been registered
    the registry holds [fn, ..., f1] in front of the earlier entries;
    [fido_dev_info_manifest] calls an initial segment of that sequence,
    the most recently registered provider first, and the whole of it
    when it ends with [FIDO_OK] short of the capacity. *)
Theorem registration_prepends (impl : manifest_impl)
    (fs : list dev_manifest_func_t) (g : globals)
    (devlist : list fido_dev_info_t) (ilen : Z) :
  let g' := register_all fs g in
  let out := fido_dev_info_manifest impl g' devlist ilen in
  manifest_funcs g' = rev fs ++ manifest_funcs g /\
  invoked out `prefix_of` rev fs ++ manifest_funcs g /\
  (forall f fs', fs = fs' ++ [f] -> head (invoked out) = Some f) /\
  (mo_r out = FIDO_OK -> mo_olen out <> ilen ->
   invoked out = rev fs ++ manifest_funcs g).
Proof.
  intros g' out. subst g' out. unfold fido_dev_info_manifest.
  rewrite register_all_funcs. repeat split.
  - apply manifest_loop_prefix.
  - intros f fs' ->. rewrite rev_app_distr.
    change (rev [f] ++ rev fs') with (f :: rev fs'). rewrite <- app_comm_cons.
    destruct (manifest_loop_first impl f (rev fs' ++ manifest_funcs g)
                devlist ilen 0) as [rest Hcalls].
    unfold invoked. now rewrite Hcalls.
  - apply manifest_loop_all.
Qed.

(** The registry after one call of [fido_init] that returns. *)
Lemma fido_init_funcs (b : build) (ie : init_env) (flags : Z) (g g1 : globals) :
  fido_init b ie flags g = Some g1 ->
  manifest_funcs g1 =
    match platform_manifest_func b with
    | Some f => if init_calloc_ok ie then f :: manifest_funcs g
                else manifest_funcs g
    | None => manifest_funcs g
    end.
Proof.
  unfold fido_init, platform_manifest_func, fido_dev_register_manifest_func,
    fido_log_init.
  destruct (LINUX b), (USE_HIDAPI b), (OSX b), (WIN b), (OPENBSD b),
    (init_calloc_ok ie), (hid_init_ret ie =? 0),
    (negb (Z.land flags FIDO_DEBUG =? 0) || getenv_FIDO_DEBUG ie);
    simpl; intros Hinit; inversion Hinit; reflexivity.
Qed.

(** [fido_init] returns unless [hid_init] fails in a hidapi build. *)
Lemma fido_init_returns (b : build) (ie : init_env) (flags : Z) (g : globals) :
  hid_init_ret ie = 0 -> exists g1, fido_init b ie flags g = Some g1.
Proof.
  intros Hhid. unfold fido_init. rewrite Hhid. simpl.
  destruct (LINUX b), (USE_HIDAPI b), (OSX b), (WIN b), (OPENBSD b); eauto.
Qed.

(** C3: [fido_init] pushes the platform provider on every call, so two
    calls leave one entry more than one call (the registry is that of
    the first call only in a build without a platform provider);
    [fido_exit] frees every node and leaves the registry empty. *)
Theorem init_pushes_exit_flushes (b : build) (ie1 ie2 : init_env)
    (flags1 flags2 : Z) (g : globals) :
  hid_init_ret ie1 = 0 -> hid_init_ret ie2 = 0 ->
  exists g1 g2,
    fido_init b ie1 flags1 g = Some g1 /\
    fido_init b ie2 flags2 g1 = Some g2 /\
    (forall f, platform_manifest_func b = Some f -> init_calloc_ok ie2 = true ->
       manifest_funcs g2 = f :: manifest_funcs g1 /\
       manifest_funcs g2 <> manifest_funcs g1) /\
    (platform_manifest_func b = None -> manifest_funcs g2 = manifest_funcs g1) /\
    manifest_funcs (fst (fido_exit g2)) = [] /\
    snd (fido_exit g2) = length (manifest_funcs g2).
Proof.
  intros Hhid1 Hhid2.
  destruct (fido_init_returns b ie1 flags1 g Hhid1) as [g1 Hg1].
  destruct (fido_init_returns b ie2 flags2 g1 Hhid2) as [g2 Hg2].
  exists g1, g2. split; [exact Hg1|]. split; [exact Hg2|].
  split.
  { intros f Hf Halloc.
    rewrite (fido_init_funcs _ _ _ _ _ Hg2), Hf, Halloc.
    split; [reflexivity|].
    intros Heq. apply (f_equal (@length _)) in Heq. simpl in Heq. lia. }
  split.
  { intros Hnone. now rewrite (fido_init_funcs _ _ _ _ _ Hg2), Hnone. }
  split; [reflexivity|].
  simpl. induction (manifest_funcs g2); simpl; congruence.
Qed.

(** *** Capacity *)

Lemma well_behaved_tail (impl : manifest_impl) (m_func : dev_manifest_func_t)
    (next : list dev_manifest_func_t) :
  well_behaved impl (m_func :: next) -> well_behaved impl next.
Proof. intros Hwb f off cap Hin. apply Hwb. now right. Qed.

(** What a well-behaved provider's answer does to [*olen]. *)
Lemma step_facts (impl : manifest_impl) (m_func : dev_manifest_func_t)
    (next : list dev_manifest_func_t) (ilen olen : Z) :
  0 <= olen <= ilen -> ilen < 2 ^ 64 ->
  well_behaved impl (m_func :: next) ->
  let cap := size_t (ilen - olen) in
  let ret := impl m_func olen cap in
  cap = ilen - olen /\
  (mr_r ret = FIDO_OK ->
   mr_olen ret = Z.of_nat (length (mr_written ret)) /\
   size_t (olen + mr_olen ret) = olen + mr_olen ret /\
   olen <= olen + mr_olen ret <= ilen).
Proof.
  intros Holen Hilen Hwb cap ret.
  assert (Hcap : cap = ilen - olen) by (apply size_t_small; lia).
  split; [exact Hcap|]. intros Hok.
  destruct (Hwb m_func olen cap (or_introl eq_refl)) as [Hfit Hcount];
    [lia | lia |].
  fold ret in Hfit, Hcount. specialize (Hcount Hok).
  split; [exact Hcount|].
  assert (0 <= mr_olen ret <= ilen - olen) by lia.
  split; [apply size_t_small|]; lia.
Qed.

Lemma manifest_loop_bounds (impl : manifest_impl)
    (curr : list dev_manifest_func_t) (devlist : list fido_dev_info_t)
    (ilen olen : Z) :
  0 <= olen <= ilen -> ilen < 2 ^ 64 ->
  well_behaved impl curr ->
  let out := manifest_loop impl curr devlist ilen olen in
  Forall (fun c => olen <= mc_off c <= ilen /\ mc_cap c = ilen - mc_off c)
    (mo_calls out) /\
  olen <= mo_olen out <= ilen.
Proof.
  revert devlist olen.
  induction curr as [|m_func next IH]; intros devlist olen Holen Hilen Hwb;
    [simpl; split; [constructor | lia]|].
  destruct (step_facts impl m_func next ilen olen Holen Hilen Hwb)
    as [Hcap Hok].
  assert (Hcall : olen <= olen <= ilen /\ size_t (ilen - olen) = ilen - olen)
    by (split; [lia | exact Hcap]).
  destruct (manifest_loop_step impl m_func next devlist ilen olen)
    as [(_ & ->) | [(Hr & _ & ->) | (Hr & _ & ->)]]; simpl.
  - split; [repeat constructor; simpl; tauto | lia].
  - destruct (Hok Hr) as (_ & -> & Hle).
    split; [repeat constructor; simpl; tauto | lia].
  - destruct (Hok Hr) as (_ & Hsz & Hle). rewrite Hsz.
    destruct (IH (list_inserts (Z.to_nat olen)
                    (mr_written (impl m_func olen (size_t (ilen - olen)))) devlist)
                 (olen + mr_olen (impl m_func olen (size_t (ilen - olen)))))
      as [Hcalls Hfinal]; [lia | exact Hilen | exact (well_behaved_tail _ _ _ Hwb) |].
    split; [|lia].
    constructor; [simpl; tauto|].
    eapply Forall_impl; [exact Hcalls|]. simpl. intros c Hc. lia.
Qed.

(** Every call but the last succeeded and left room in the list. *)
Lemma manifest_loop_room (impl : manifest_impl)
    (curr : list dev_manifest_func_t) (devlist : list fido_dev_info_t)
    (ilen olen : Z) :
  0 <= olen <= ilen -> ilen < 2 ^ 64 ->
  well_behaved impl curr ->
  forall pre c post,
    mo_calls (manifest_loop impl curr devlist ilen olen) = pre ++ c :: post ->
    post <> [] ->
    mr_r (call_ret impl c) = FIDO_OK /\
    mc_off c + mr_olen (call_ret impl c) < ilen.
Proof.
  revert devlist olen.
  induction curr as [|m_func next IH];
    intros devlist olen Holen Hilen Hwb pre c post Hsplit Hpost.
  { simpl in Hsplit. now destruct pre. }
  destruct (step_facts impl m_func next ilen olen Holen Hilen Hwb)
    as [Hcap Hok].
  destruct (manifest_loop_step impl m_func next devlist ilen olen)
    as [(_ & Hout) | [(_ & _ & Hout) | (Hr & Hroom & Hout)]];
    rewrite Hout in Hsplit; simpl in Hsplit.
  - destruct pre as [|c0 [|c1 pre]]; inversion Hsplit; subst; congruence.
  - destruct pre as [|c0 [|c1 pre]]; inversion Hsplit; subst; congruence.
  - destruct (Hok Hr) as (_ & Hsz & Hle). rewrite Hsz in Hroom, Hsplit.
    destruct pre as [|c0 pre]; inversion Hsplit; subst; clear Hsplit.
    + unfold call_ret. simpl. split; [exact Hr | lia].
    + eapply IH; [ | exact Hilen | exact (well_behaved_tail _ _ _ Hwb) | eassumption
                 | exact Hpost]. lia.
Qed.

Lemma entries_written_cons (impl : manifest_impl) (c : manifest_call)
    (cs : list manifest_call) :
  entries_written impl (c :: cs) =
  Z.of_nat (length (mr_written (call_ret impl c))) + entries_written impl cs.
Proof. reflexivity. Qed.

(** A run that returns an error ends with the call that failed; [*olen]
    counts what the calls before it wrote. *)
Lemma manifest_loop_error (impl : manifest_impl)
    (curr : list dev_manifest_func_t) (devlist : list fido_dev_info_t)
    (ilen olen : Z) :
  0 <= olen <= ilen -> ilen < 2 ^ 64 ->
  well_behaved impl curr ->
  let out := manifest_loop impl curr devlist ilen olen in
  mo_r out <> FIDO_OK ->
  exists pre c,
    mo_calls out = pre ++ [c] /\
    mr_r (call_ret impl c) = mo_r out /\
    mo_olen out = olen + entries_written impl pre.
Proof.
  revert devlist olen.
  induction curr as [|m_func next IH]; intros devlist olen Holen Hilen Hwb;
    [simpl; congruence|].
  destruct (step_facts impl m_func next ilen olen Holen Hilen Hwb)
    as [Hcap Hok].
  destruct (manifest_loop_step impl m_func next devlist ilen olen)
    as [(_ & Hout) | [(_ & _ & Hout) | (Hr & _ & Hout)]];
    rewrite Hout; clear Hout; simpl; intros Herr.
  - exists [], {| mc_func := m_func; mc_off := olen;
                  mc_cap := size_t (ilen - olen) |}.
    unfold call_ret. simpl.
    split; [reflexivity | split; [reflexivity | lia]].
  - congruence.
  - destruct (Hok Hr) as (Hcount & Hsz & Hle). rewrite Hsz in Herr |- *.
    assert (Hstep : 0 <= olen + mr_olen (impl m_func olen (size_t (ilen - olen)))
                    <= ilen) by lia.
    destruct (IH _ _ Hstep Hilen (well_behaved_tail _ _ _ Hwb) Herr)
      as (pre & c & Hcalls & Hcode & Hcountd).
    exists ({| mc_func := m_func; mc_off := olen;
               mc_cap := size_t (ilen - olen) |} :: pre), c.
    rewrite Hcalls. split; [reflexivity | split; [exact Hcode|]].
    rewrite Hcountd, entries_written_cons.
    unfold call_ret. cbn [mc_func mc_off mc_cap]. lia.
Qed.

(** The code returned is the code of the last provider called. *)
Lemma manifest_loop_last (impl : manifest_impl)
    (curr : list dev_manifest_func_t) (devlist : list fido_dev_info_t)
    (ilen olen : Z) :
  forall pre c,
    mo_calls (manifest_loop impl curr devlist ilen olen) = pre ++ [c] ->
    mo_r (manifest_loop impl curr devlist ilen olen) = mr_r (call_ret impl c).
Proof.
  revert devlist olen.
  induction curr as [|m_func next IH]; intros devlist olen pre c Hcalls.
  { simpl in Hcalls. now destruct pre. }
  destruct (manifest_loop_step impl m_func next devlist ilen olen)
    as [(_ & Hout) | [(Hr & _ & Hout) | (Hr & _ & Hout)]];
    rewrite Hout in Hcalls |- *; simpl in Hcalls |- *.
  - destruct pre as [|c0 [|c1 pre]]; inversion Hcalls; subst. reflexivity.
  - destruct pre as [|c0 [|c1 pre]]; inversion Hcalls; subst.
    unfold call_ret. simpl. now rewrite Hr.
  - destruct pre as [|c0 pre]; inversion Hcalls as [[Hc Hrest]].
    + destruct next as [|f next'].
      * simpl. unfold call_ret. simpl. now rewrite Hr.
      * exfalso.
        destruct (manifest_loop_first impl f next'
                    (list_inserts (Z.to_nat olen)
                       (mr_written (impl m_func olen (size_t (ilen - olen))))
                       devlist)
                    ilen
                    (size_t (olen + mr_olen (impl m_func olen
                                               (size_t (ilen - olen))))))
          as [more Hfirst].
        rewrite Hfirst in Hrest. discriminate.
    + eapply IH. eassumption.
Qed.

(** A run that ends with [FIDO_OK]: [*olen] counts what the calls
    wrote. *)
Lemma manifest_loop_ok_count (impl : manifest_impl)
    (curr : list dev_manifest_func_t) (devlist : list fido_dev_info_t)
    (ilen olen : Z) :
  0 <= olen <= ilen -> ilen < 2 ^ 64 ->
  well_behaved impl curr ->
  mo_r (manifest_loop impl curr devlist ilen olen) = FIDO_OK ->
  mo_olen (manifest_loop impl curr devlist ilen olen) =
    olen + entries_written impl
             (mo_calls (manifest_loop impl curr devlist ilen olen)).
Proof.
  revert devlist olen.
  induction curr as [|m_func next IH]; intros devlist olen Holen Hilen Hwb;
    [simpl; lia|].
  destruct (step_facts impl m_func next ilen olen Holen Hilen Hwb)
    as [Hcap Hok].
  destruct (manifest_loop_step impl m_func next devlist ilen olen)
    as [(Herr & Hout) | [(Hr & _ & Hout) | (Hr & _ & Hout)]];
    rewrite Hout; clear Hout; simpl; intros Hcode.
  - contradiction.
  - destruct (Hok Hr) as (Hcount & Hsz & _). rewrite Hsz.
    unfold call_ret. simpl. lia.
  - destruct (Hok Hr) as (Hcount & Hsz & Hle). rewrite Hsz in Hcode |- *.
    assert (Hstep : 0 <= olen + mr_olen (impl m_func olen (size_t (ilen - olen)))
                    <= ilen) by lia.
    rewrite (IH _ _ Hstep Hilen (well_behaved_tail _ _ _ Hwb) Hcode).
    unfold call_ret at 1. cbn [mc_func mc_off mc_cap]. lia.
Qed.

(** The walk over [pre ++ rest], when the walk over [pre] runs to its
    end (every provider of [pre] called, [FIDO_OK], the list not full
    after the last one), is the walk over [pre] followed by the walk
    over [rest] from where the first left off. *)
Lemma manifest_loop_app (impl : manifest_impl)
    (pre rest : list dev_manifest_func_t) (devlist : list fido_dev_info_t)
    (ilen olen : Z) :
  let before := manifest_loop impl pre devlist ilen olen in
  let after := manifest_loop impl rest (mo_devlist before) ilen (mo_olen before) in
  let out := manifest_loop impl (pre ++ rest) devlist ilen olen in
  invoked before = pre ->
  mo_r before = FIDO_OK ->
  pre = [] \/ mo_olen before <> ilen ->
  mo_r out = mo_r after /\
  mo_olen out = mo_olen after /\
  mo_devlist out = mo_devlist after /\
  mo_calls out = mo_calls before ++ mo_calls after.
Proof.
  revert devlist olen.
  induction pre as [|p pre IH]; intros devlist olen; cbv zeta.
  { simpl. auto. }
  intros Hall Hcode Hroom.
  destruct Hroom as [Hnil | Hroom]; [discriminate|].
  pose proof (manifest_loop_step impl p (pre ++ rest) devlist ilen olen) as Hbig.
  pose proof (manifest_loop_step impl p pre devlist ilen olen) as Hsmall.
  cbv zeta in Hbig, Hsmall.
  change ((p :: pre) ++ rest) with (p :: pre ++ rest).
  destruct Hsmall as [(Herr & Hs) | [(Hr & Hfull & Hs) | (Hr & Hne & Hs)]];
    rewrite Hs in Hall, Hcode, Hroom |- *; simpl in Hall, Hcode, Hroom.
  - contradiction.
  - contradiction.
  - destruct Hbig as [(Herr & _) | [(_ & Hfull & _) | (_ & _ & Hb)]];
      [contradiction | contradiction |].
    rewrite Hb. unfold invoked in Hall. simpl in Hall.
    inversion Hall as [Hall'].
    destruct (IH (list_inserts (Z.to_nat olen)
                    (mr_written (impl p olen (size_t (ilen - olen)))) devlist)
                 (size_t (olen + mr_olen (impl p olen (size_t (ilen - olen))))))
      as (H1 & H2 & H3 & H4).
    + unfold invoked. now rewrite Hall'.
    + exact Hcode.
    + right. exact Hroom.
    + simpl. rewrite Hall'. rewrite H1, H2, H3, H4. auto.
Qed.

(** C10: with a capacity [ilen] and providers that keep to their
    contract, [*olen] never exceeds [ilen] (at each call the provider is
    given exactly the remaining capacity); after a call that brings
    [*olen] to [ilen] no further provider is called; and the first
    provider that returns an error ends the walk: its error is what
    [fido_dev_info_manifest] returns, no provider after it is called,
    the providers before it all succeeded, and [*olen] is the number of
    entries those providers wrote. *)
Theorem manifest_respects_capacity (impl : manifest_impl) (g : globals)
    (devlist : list fido_dev_info_t) (ilen : Z) :
  0 <= ilen < 2 ^ 64 ->
  well_behaved impl (manifest_funcs g) ->
  let out := fido_dev_info_manifest impl g devlist ilen in
  (Forall (fun c => 0 <= mc_off c <= ilen /\ mc_cap c = ilen - mc_off c)
     (mo_calls out) /\
   0 <= mo_olen out <= ilen) /\
  (forall pre c post,
     mo_calls out = pre ++ c :: post ->
     mr_r (call_ret impl c) = FIDO_OK ->
     mc_off c + mr_olen (call_ret impl c) = ilen ->
     post = []) /\
  (mo_r out <> FIDO_OK ->
   exists pre c,
     mo_calls out = pre ++ [c] /\
     map mc_func (pre ++ [c]) `prefix_of` manifest_funcs g /\
     Forall (fun c' => mr_r (call_ret impl c') = FIDO_OK) pre /\
     mr_r (call_ret impl c) = mo_r out /\
     mo_olen out = entries_written impl pre) /\
  (forall pre c post,
     mo_calls out = pre ++ c :: post ->
     mr_r (call_ret impl c) <> FIDO_OK ->
     post = [] /\
     mo_r out = mr_r (call_ret impl c) /\
     Forall (fun c' => mr_r (call_ret impl c') = FIDO_OK) pre /\
     mo_olen out = entries_written impl pre) /\
  (forall pre f post,
     manifest_funcs g = pre ++ f :: post ->
     let before :=
       fido_dev_info_manifest impl
         {| manifest_funcs := pre; logging := logging g |} devlist ilen in
     invoked before = pre ->
     mo_r before = FIDO_OK ->
     pre = [] \/ mo_olen before < ilen ->
     let r := mr_r (impl f (mo_olen before) (ilen - mo_olen before)) in
     r <> FIDO_OK ->
     mo_r out = r /\
     mo_olen out = mo_olen before /\
     mo_olen out = entries_written impl (mo_calls before) /\
     invoked out = pre ++ [f]).
Proof.
  intros Hilen Hwb out. subst out. unfold fido_dev_info_manifest.
  assert (H0 : 0 <= 0 <= ilen) by lia.
  destruct Hilen as [_ Hilen].
  assert (Hsucc : forall pre c post,
            mo_calls (manifest_loop impl (manifest_funcs g) devlist ilen 0) =
              pre ++ c :: post ->
            Forall (fun c' => mr_r (call_ret impl c') = FIDO_OK) pre).
  { intros pre c post Hcalls. apply Forall_forall. intros c' Hin.
    apply list_elem_of_In, in_split in Hin. destruct Hin as (l1 & l2 & ->).
    eapply (manifest_loop_room impl _ devlist ilen 0 H0 Hilen Hwb l1 c'
              (l2 ++ c :: post)).
    + rewrite Hcalls. now rewrite <- app_assoc.
    + now destruct l2. }
  split; [now apply manifest_loop_bounds|].
  split.
  { intros pre c post Hsplit Hr Hfull.
    destruct post as [|c' post]; [reflexivity|]. exfalso.
    destruct (manifest_loop_room impl _ devlist ilen 0 H0 Hilen Hwb
                pre c (c' :: post) Hsplit) as [_ Hlt]; [discriminate | lia]. }
  split.
  { intros Herr.
    destruct (manifest_loop_error impl _ devlist ilen 0 H0 Hilen Hwb Herr)
      as (pre & c & Hcalls & Hcode & Hcount).
    exists pre, c. split; [exact Hcalls|].
    split. { rewrite <- Hcalls. apply manifest_loop_prefix. }
    split; [exact (Hsucc pre c [] Hcalls)|].
    split; [exact Hcode | lia]. }
  split.
  { intros pre c post Hcalls Hfail.
    assert (Hpost : post = []).
    { destruct post as [|c' post]; [reflexivity|]. exfalso.
      destruct (manifest_loop_room impl _ devlist ilen 0 H0 Hilen Hwb
                  pre c (c' :: post) Hcalls) as [Hok _];
        [discriminate | contradiction]. }
    subst post. split; [reflexivity|].
    pose proof (manifest_loop_last impl _ devlist ilen 0 pre c Hcalls) as Hcode.
    split; [exact Hcode|]. split; [exact (Hsucc pre c [] Hcalls)|].
    assert (Herr : mo_r (manifest_loop impl (manifest_funcs g) devlist ilen 0)
                   <> FIDO_OK) by (rewrite Hcode; exact Hfail).
    destruct (manifest_loop_error impl _ devlist ilen 0 H0 Hilen Hwb Herr)
      as (pre' & c' & Hcalls' & _ & Hcount).
    rewrite Hcalls in Hcalls'. apply app_inj_tail in Hcalls'.
    destruct Hcalls' as [-> _]. lia. }
  intros pre f post Hfuncs. simpl manifest_funcs.
  intros Hall Hcode Hroom Hfail.
  rewrite Hfuncs in Hwb |- *.
  assert (Hwb_pre : well_behaved impl pre).
  { intros f' off cap Hin. apply Hwb. apply in_or_app. now left. }
  assert (Hwb_rest : well_behaved impl (f :: post)).
  { intros f' off cap Hin. apply Hwb. apply in_or_app. now right. }
  destruct (manifest_loop_bounds impl pre devlist ilen 0 H0 Hilen Hwb_pre)
    as [_ Hbound].
  pose proof (manifest_loop_ok_count impl pre devlist ilen 0 H0 Hilen Hwb_pre
                Hcode) as Hcount.
  set (before := manifest_loop impl pre devlist ilen 0) in *.
  assert (Hroom' : pre = [] \/ mo_olen before <> ilen)
    by (destruct Hroom; [now left | right; lia]).
  destruct (manifest_loop_app impl pre (f :: post) devlist ilen 0
              Hall Hcode Hroom') as (Hr & Ho & _ & Hc).
  fold before in Hr, Ho, Hc.
  pose proof (manifest_loop_step impl f post (mo_devlist before) ilen
                (mo_olen before)) as Hstep.
  cbv zeta in Hstep.
  assert (Hcap : size_t (ilen - mo_olen before) = ilen - mo_olen before)
    by (apply size_t_small; lia).
  rewrite Hcap in Hstep.
  destruct Hstep as [(_ & Hout) | [(Hok & _) | (Hok & _)]];
    [|contradiction | contradiction].
  rewrite Hout in Hr, Ho, Hc. simpl in Hr, Ho, Hc.
  rewrite Hr, Ho. split; [reflexivity|]. split; [reflexivity|].
  split; [lia|].
  unfold invoked. rewrite Hc, map_app. simpl. fold (invoked before).
  now rewrite Hall.
Qed.

End RegistryFacts.

(** * Concrete runs *)

(** A device that answers INIT with a nonce of its own: the open fails
    with [FIDO_ERR_RX] and the handle is closed. *)
Lemma open_rejects_bad_nonce_witness :
  let out := @fido_dev_open libfido2_h release_linux wrong_nonce_env
               fresh_dev None in
  rcode out = -2 /\ dev_io_handle (rdev out) = None /\
  last (rtrace out) = Some (EvIoClose (Some fido_hid_close) (Some 1%positive)).
Proof.
  destruct (@open_rejects_bad_nonce libfido2_h libfido2_h_errors release_linux
              wrong_nonce_env fresh_dev
              (rdev (@fido_dev_open_tx libfido2_h wrong_nonce_env fresh_dev None))
              None
              (rtrace (@fido_dev_open_tx libfido2_h wrong_nonce_env fresh_dev None))
              eq_refl eq_refl)
    as (Hcode & _ & Hnull & _).
  - left. vm_compute. discriminate.
  - split; [exact Hcode|]. split; [exact Hnull|]. reflexivity.
Defined.

(** A dead transport: the open fails with [FIDO_ERR_TX], the session is
    closed, and opening it again on the scripted device succeeds. *)
Lemma open_error_leaves_closed_witness :
  let out := @fido_dev_open libfido2_h release_linux dead_env fresh_dev None in
  rcode out = -1 /\
  dev_io_handle (rdev out) = None /\
  rcode (@fido_dev_open libfido2_h release_linux (scripted_env 0xCAFEBABE 5)
           (rdev out) None) = 0.
Proof.
  destruct (@open_error_leaves_closed libfido2_h release_linux dead_env
              fresh_dev None eq_refl) as [Hopen _].
  cbv zeta in Hopen. destruct Hopen as [Hnull Hagain].
  - vm_compute. discriminate.
  - split; [reflexivity|]. split; [exact Hnull|].
    apply Hagain.
    exists fido_hid_open, fido_hid_close, 0x0807060504030201, 1%positive,
      (scripted_reply 0x0807060504030201 0xCAFEBABE 5).
    repeat split; try reflexivity; vm_compute; discriminate.
Defined.

(** A second open on the session opened in the INIT scenario. *)
Lemma open_twice_rejected_witness :
  @fido_dev_open libfido2_h release_linux dead_env opened_dev None =
  (-7, opened_dev, []).
Proof.
  exact (proj1 (@open_twice_rejected libfido2_h libfido2_h_errors release_linux
                  dead_env opened_dev None 1%positive eq_refl)).
Defined.

(** Cancelling on a fresh session, on a transport that fails. *)
Lemma cancel_sends_one_frame_witness :
  rtrace (@fido_dev_cancel libfido2_h dead_env fresh_dev) =
    [EvTx 0xFFFFFFFF 0x91 buf_null (-1)] /\
  rcode (@fido_dev_cancel libfido2_h dead_env fresh_dev) = -1.
Proof.
  destruct (@cancel_sends_one_frame libfido2_h libfido2_h_errors dead_env fresh_dev)
    as (Htrace & _ & _ & Hfail & _).
  split; [exact Htrace|]. apply Hfail. reflexivity.
Defined.

(** Replacing the vtable of the open session, then of the fresh one. *)
Lemma set_io_functions_guarded_witness :
  let io := {| io_open := Some (user_io_fn 1); io_close := Some (user_io_fn 2);
               io_read := Some (user_io_fn 3); io_write := Some (user_io_fn 4) |} in
  @fido_dev_set_io_functions libfido2_h opened_dev (Some io) = (-7, opened_dev) /\
  fst (@fido_dev_set_io_functions libfido2_h fresh_dev (Some io)) = 0 /\
  info_io (dev_info (snd (@fido_dev_set_io_functions libfido2_h fresh_dev (Some io))))
    = io.
Proof.
  intros io. split.
  - apply (@set_io_functions_guarded libfido2_h libfido2_h_errors opened_dev (Some io)).
    vm_compute. discriminate.
  - destruct (proj1 (proj2 (@set_io_functions_guarded libfido2_h libfido2_h_errors
                              fresh_dev (Some io)))
                eq_refl (user_io_fn 1) (user_io_fn 2) (user_io_fn 3) (user_io_fn 4)
                eq_refl) as (Hcode & Hio & _).
    split; [exact Hcode|]. now inversion Hio.
Defined.

(** Closing the session opened in the INIT scenario. *)
Lemma close_releases_handle_witness :
  @reachable libfido2_h release_linux opened_dev /\
  @fido_dev_close libfido2_h opened_dev =
    (0, set_io_handle opened_dev None,
     [EvIoClose (Some fido_hid_close) (Some 1%positive)]).
Proof.
  assert (Hreach : @reachable libfido2_h release_linux opened_dev).
  { unfold opened_dev. apply reach_open.
    apply (reach_new release_linux true true). reflexivity. }
  split; [exact Hreach|].
  destruct (proj1 (@close_releases_handle libfido2_h libfido2_h_errors
                     release_linux opened_dev Hreach) 1%positive eq_refl)
    as (fclose & Hclose & Hout & _).
  vm_compute in Hclose. inversion Hclose; subst fclose. exact Hout.
Defined.

(** The session of the INIT scenario has flags 0x05: CBOR is bit 2. *)
Lemma cbor_capability_bit_witness :
  @fido_dev_is_fido2 libfido2_h opened_dev = true /\
  @fido_dev_is_fido2 libfido2_h (@fido_dev_force_u2f libfido2_h opened_dev) = false /\
  fido_dev_flags (@fido_dev_force_u2f libfido2_h opened_dev) = 1.
Proof.
  destruct (@cbor_capability_bit libfido2_h 2 ltac:(lia) eq_refl opened_dev)
    as (Hbit & Hu2f & _).
  - vm_compute. split; [discriminate | reflexivity].
  - split; [rewrite Hbit; reflexivity|]. split; [exact Hu2f | reflexivity].
Defined.

(** Two providers registered in the order 1, 2 are called in the order
    2, 1: registration does not append, and the manifest does not call
    the providers in registration order. *)
Lemma registration_order_counterexample :
  let g := @register_all libfido2_h
             [user_manifest_func 1; user_manifest_func 2] empty_globals in
  manifest_funcs g <> [user_manifest_func 1; user_manifest_func 2] /\
  invoked (@fido_dev_info_manifest libfido2_h idle_impl g
             (repeat zero_dev_info 4) 4)
    <> [user_manifest_func 1; user_manifest_func 2].
Proof. vm_compute. split; discriminate. Qed.

Lemma registration_prepends_witness :
  let g := @register_all libfido2_h
             [user_manifest_func 1; user_manifest_func 2] empty_globals in
  manifest_funcs g = [user_manifest_func 2; user_manifest_func 1] /\
  invoked (@fido_dev_info_manifest libfido2_h idle_impl g
             (repeat zero_dev_info 4) 4)
    = [user_manifest_func 2; user_manifest_func 1].
Proof.
  destruct (@registration_prepends libfido2_h idle_impl
              [user_manifest_func 1; user_manifest_func 2] empty_globals
              (repeat zero_dev_info 4) 4) as (Hfuncs & _ & _ & Hall).
  split; [exact Hfuncs|].
  apply Hall; [reflexivity | vm_compute; discriminate].
Defined.

(** On Linux, [fido_init] called twice leaves two providers where one
    call leaves one. *)
Lemma init_twice_counterexample :
  exists g1 g2,
    @fido_init libfido2_h release_linux quiet_init 0 empty_globals = Some g1 /\
    @fido_init libfido2_h release_linux quiet_init 0 g1 = Some g2 /\
    manifest_funcs g1 = [fido_dev_info_manifest_linux] /\
    manifest_funcs g2 = [fido_dev_info_manifest_linux; fido_dev_info_manifest_linux] /\
    manifest_funcs g2 <> manifest_funcs g1.
Proof.
  eexists. eexists. split; [reflexivity|]. split; [reflexivity|].
  vm_compute. repeat split. discriminate.
Qed.

Lemma init_pushes_exit_flushes_witness :
  exists g1 g2,
    @fido_init libfido2_h release_linux quiet_init 0 empty_globals = Some g1 /\
    @fido_init libfido2_h release_linux quiet_init 0 g1 = Some g2 /\
    manifest_funcs g2 = fido_dev_info_manifest_linux :: manifest_funcs g1 /\
    manifest_funcs (fst (fido_exit g2)) = [].
Proof.
  destruct (@init_pushes_exit_flushes libfido2_h release_linux quiet_init
              quiet_init 0 0 empty_globals eq_refl eq_refl)
    as (g1 & g2 & Hg1 & Hg2 & Hpush & _ & Hflush & _).
  exists g1, g2. split; [exact Hg1|]. split; [exact Hg2|].
  split; [|exact Hflush].
  apply (Hpush fido_dev_info_manifest_linux); reflexivity.
Defined.

Lemma sample_impl_well_behaved (fs : list dev_manifest_func_t) :
  @well_behaved libfido2_h sample_impl fs.
Proof.
  intros f off cap _ Hoff Hcap. unfold sample_impl.
  destruct f as [| | | | |[|[|[|n]]]]; simpl; try (split; [lia | reflexivity]).
  rewrite repeat_length. split; [lia|]. intros _. lia.
Qed.

(** With a capacity of zero the first provider is still called, with a
    capacity of zero; the check of [*olen == ilen] follows the call. *)
Example manifest_zero_capacity :
  let g := @register_all libfido2_h
             [user_manifest_func 3; user_manifest_func 1] empty_globals in
  mo_calls (@fido_dev_info_manifest libfido2_h sample_impl g [] 0) =
  [{| mc_func := user_manifest_func 1; mc_off := 0; mc_cap := 0 |}].
Proof. reflexivity. Qed.

(** Registry 3, 1, 2 with room for four entries: provider 3 finds none,
    provider 1 writes two, provider 2 fails; two entries are reported. *)
Lemma manifest_respects_capacity_witness :
  let g := @register_all libfido2_h
             [user_manifest_func 2; user_manifest_func 1; user_manifest_func 3]
             empty_globals in
  let out := @fido_dev_info_manifest libfido2_h sample_impl g
               (repeat zero_dev_info 4) 4 in
  mo_r out = -9 /\ mo_olen out = 2 /\
  invoked out = [user_manifest_func 3; user_manifest_func 1; user_manifest_func 2] /\
  0 <= mo_olen out <= 4.
Proof.
  intros g out.
  destruct (@manifest_respects_capacity libfido2_h sample_impl g
              (repeat zero_dev_info 4) 4 ltac:(lia)
              (sample_impl_well_behaved _))
    as ((_ & Hbound) & _ & _ & _ & Hfirst).
  destruct (Hfirst [user_manifest_func 3; user_manifest_func 1]
              (user_manifest_func 2) [] eq_refl eq_refl eq_refl)
    as (Hcode & Holen & _ & Hcalled).
  - right. vm_compute. reflexivity.
  - vm_compute. discriminate.
  - split; [exact Hcode|]. split; [exact Holen|]. split; [exact Hcalled|].
    exact Hbound.
Defined.

(** * Further properties of the handshake *)

Lemma obtain_nonce_code (e : env) (nonce : Z) :
  fst (obtain_nonce e nonce) = 0 \/ fst (obtain_nonce e nonce) = -1.
Proof.
  unfold obtain_nonce. destruct (env_random_fd e <? 0); [now right|].
  destruct (env_random_read e (env_random_fd e) nonce) as [r n].
  destruct ((r <? 0) || negb (r =? 8)); [now right | now left].
Qed.

Lemma obtain_nonce_fails (e : env) (nonce : Z) :
  env_random_fd e < 0 \/
  fst (env_random_read e (env_random_fd e) nonce) <> 8 ->
  fst (obtain_nonce e nonce) = -1.
Proof.
  unfold obtain_nonce. intros Hwhy.
  destruct (Z.ltb_spec (env_random_fd e) 0) as [Hfd | Hfd]; [reflexivity|].
  destruct Hwhy as [Hneg | Hshort]; [lia|].
  destruct (env_random_read e (env_random_fd e) nonce) as [r n].
  simpl in Hshort. apply Z.eqb_neq in Hshort. rewrite Hshort.
  now rewrite orb_true_r.
Qed.

Section HandshakeFacts.
Context `{fido_h} `{!fido_h_errors}.

(** [fido_dev_open_tx] on a closed session with [open] and [close] in
    its vtable, by the answers of the environment. *)
Lemma open_tx_closed (e : env) (dev : fido_dev_t) (path : option string)
    (fopen fclose : io_fn) :
  dev_io_handle dev = None ->
  io_open (info_io (dev_info dev)) = Some fopen ->
  io_close (info_io (dev_info dev)) = Some fclose ->
  let rc := fst (obtain_nonce e (dev_nonce dev)) in
  let n := snd (obtain_nonce e (dev_nonce dev)) in
  let h := env_io_open e fopen path in
  let dev2 := set_io_handle (set_nonce dev n) h in
  let cmd := uint8 (Z.lor CTAP_FRAME_INIT CTAP_CMD_INIT) in
  let r := env_fido_tx e dev2 cmd (buf_u64 n) in
  fido_dev_open_tx e dev path =
  if rc <? 0 then (FIDO_ERR_INTERNAL, set_nonce dev n, [])
  else match h with
       | None => (FIDO_ERR_INTERNAL, dev2, [EvIoOpen fopen path None])
       | Some _ =>
         if r <? 0
         then (FIDO_ERR_TX, set_io_handle dev2 None,
               [EvIoOpen fopen path h; EvTx (dev_cid dev) cmd (buf_u64 n) r;
                EvIoClose (Some fclose) h])
         else (FIDO_OK, dev2,
               [EvIoOpen fopen path h; EvTx (dev_cid dev) cmd (buf_u64 n) r])
       end.
Proof.
  intros Hclosed Ho Hc. unfold fido_dev_open_tx. rewrite Hclosed, Ho, Hc.
  destruct (obtain_nonce e (dev_nonce dev)) as [rc n]. simpl.
  destruct (rc <? 0); [reflexivity|].
  destruct (env_io_open e fopen path); reflexivity.
Qed.

(** The session [fido_dev_open_rx] leaves, field by field. *)
Lemma open_rx_nonce (b : build) (e : env) (dev : fido_dev_t) (ms : Z) :
  dev_nonce (rdev (fido_dev_open_rx b e dev ms)) = dev_nonce dev.
Proof.
  unfold fido_dev_open_rx.
  destruct (env_fido_rx e dev _ ms) as [n reply].
  destruct (n <? 0); [reflexivity|].
  destruct (FIDO_FUZZ b);
    match goal with |- context [if ?c then _ else _] => destruct c end;
    reflexivity.
Qed.

Lemma open_rx_attr (b : build) (e : env) (dev : fido_dev_t) (ms : Z) :
  let cmd := uint8 (Z.lor CTAP_FRAME_INIT CTAP_CMD_INIT) in
  let n := fst (env_fido_rx e dev cmd ms) in
  let reply := snd (env_fido_rx e dev cmd ms) in
  dev_attr (rdev (fido_dev_open_rx b e dev ms)) =
  if (0 <=? n) && FIDO_FUZZ b then set_attr_nonce reply (dev_nonce dev)
  else reply.
Proof.
  simpl. unfold fido_dev_open_rx.
  destruct (env_fido_rx e dev _ ms) as [n reply]. simpl fst. simpl snd.
  destruct (Z.ltb_spec n 0) as [Hneg | Hpos].
  { destruct (Z.leb_spec 0 n); [lia | reflexivity]. }
  destruct (Z.leb_spec 0 n); [|lia]. simpl.
  destruct (FIDO_FUZZ b);
    match goal with |- context [if ?c then _ else _] => destruct c end;
    reflexivity.
Qed.

Lemma open_rx_cid_kept (b : build) (e : env) (dev : fido_dev_t) (ms : Z) :
  rcode (fido_dev_open_rx b e dev ms) <> FIDO_OK ->
  dev_cid (rdev (fido_dev_open_rx b e dev ms)) = dev_cid dev.
Proof.
  unfold fido_dev_open_rx.
  destruct (env_fido_rx e dev _ ms) as [n reply].
  destruct (n <? 0); [reflexivity|].
  destruct (FIDO_FUZZ b);
    match goal with |- context [if ?c then _ else _] => destruct c end;
    try reflexivity; unfold rcode; simpl; congruence.
Qed.

Lemma open_tx_cid (e : env) (dev : fido_dev_t) (path : option string) :
  dev_cid (rdev (fido_dev_open_tx e dev path)) = dev_cid dev.
Proof.
  unfold fido_dev_open_tx.
  destruct (dev_io_handle dev); [reflexivity|].
  destruct (io_open (info_io (dev_info dev))); [|reflexivity].
  destruct (io_close (info_io (dev_info dev))); [|reflexivity].
  destruct (obtain_nonce e (dev_nonce dev)) as [rc n].
  destruct (rc <? 0); [reflexivity|]. simpl.
  destruct (env_io_open e i path); [|reflexivity].
  destruct (env_fido_tx e _ _ _ <? 0); reflexivity.
Qed.

(** A failed handshake leaves the channel id and [dev_info] as they
    were. *)
Lemma open_wait_error_keeps (b : build) (e : env) (dev : fido_dev_t)
    (path : option string) (ms : Z) :
  rcode (open_wait b e dev path ms) <> FIDO_OK ->
  dev_cid (rdev (open_wait b e dev path ms)) = dev_cid dev /\
  dev_info (rdev (open_wait b e dev path ms)) = dev_info dev.
Proof.
  intros Herr. split; [|apply open_wait_info].
  destruct (Z.eq_dec (rcode (fido_dev_open_tx e dev path)) FIDO_OK) as [Hok | Hne].
  - pose proof (open_tx_cid e dev path) as Hcid.
    destruct (fido_dev_open_tx e dev path) as [[r dev1] t1] eqn:Htx.
    unfold rcode in Hok. simpl in Hok. subst r.
    unfold rdev in Hcid. simpl in Hcid.
    destruct (open_wait_tx_ok b e dev dev1 path ms t1 Htx) as (Hr & Hd & _).
    rewrite Hr in Herr. rewrite Hd, <- Hcid. now apply open_rx_cid_kept.
  - rewrite (open_wait_tx_error b e dev path ms Hne). apply open_tx_cid.
Qed.

Lemma open_wait_error_result (b : build) (e : env) (dev d : fido_dev_t)
    (path : option string) (ms r : Z) (t : list event) :
  fido_dev_open_tx e dev path = (r, d, t) -> r <> FIDO_OK ->
  open_wait b e dev path ms = (r, d, t).
Proof.
  intros Htx Hne. rewrite open_wait_tx_error; [exact Htx|].
  now rewrite Htx.
Qed.

(** The calls of a handshake on a closed session, by outcome. *)
Lemma open_wait_discipline (b : build) (e : env) (dev : fido_dev_t)
    (path : option string) (ms : Z) :
  dev_io_handle dev = None ->
  let out := open_wait b e dev path ms in
  let cmd := uint8 (Z.lor CTAP_FRAME_INIT CTAP_CMD_INIT) in
  (rtrace out = [] /\ dev_io_handle (rdev out) = None /\
   (rcode out = FIDO_ERR_INVALID_ARGUMENT \/ rcode out = FIDO_ERR_INTERNAL))
  \/
  (exists fopen,
     io_open (info_io (dev_info dev)) = Some fopen /\
     rtrace out = [EvIoOpen fopen path None] /\
     dev_io_handle (rdev out) = None /\ rcode out = FIDO_ERR_INTERNAL)
  \/
  (exists fopen fclose h n r,
     io_open (info_io (dev_info dev)) = Some fopen /\
     io_close (info_io (dev_info dev)) = Some fclose /\
     r < 0 /\
     rtrace out = [EvIoOpen fopen path (Some h);
                   EvTx (dev_cid dev) cmd (buf_u64 n) r;
                   EvIoClose (Some fclose) (Some h)] /\
     dev_io_handle (rdev out) = None /\ rcode out = FIDO_ERR_TX)
  \/
  (exists fopen fclose h n r k,
     io_open (info_io (dev_info dev)) = Some fopen /\
     io_close (info_io (dev_info dev)) = Some fclose /\
     0 <= r /\
     rtrace out = [EvIoOpen fopen path (Some h);
                   EvTx (dev_cid dev) cmd (buf_u64 n) r;
                   EvRx (dev_cid dev) cmd ms k;
                   EvIoClose (Some fclose) (Some h)] /\
     dev_io_handle (rdev out) = None /\ rcode out = FIDO_ERR_RX)
  \/
  (exists fopen h n r,
     io_open (info_io (dev_info dev)) = Some fopen /\
     0 <= r /\
     rtrace out = [EvIoOpen fopen path (Some h);
                   EvTx (dev_cid dev) cmd (buf_u64 n) r;
                   EvRx (dev_cid dev) cmd ms sizeof_attr] /\
     dev_io_handle (rdev out) = Some h /\ rcode out = FIDO_OK).
Proof.
  intros Hclosed out cmd. subst out.
  assert (Hinval : forall t, fido_dev_open_tx e dev path =
                     (FIDO_ERR_INVALID_ARGUMENT, dev, t) ->
                   open_wait b e dev path ms = (FIDO_ERR_INVALID_ARGUMENT, dev, t))
    by (intros t Hx; apply open_wait_error_result;
        [exact Hx | apply invalid_argument_not_ok]).
  assert (Hinternal : forall d t, fido_dev_open_tx e dev path =
                        (FIDO_ERR_INTERNAL, d, t) ->
                      open_wait b e dev path ms = (FIDO_ERR_INTERNAL, d, t))
    by (intros d t Hx; apply open_wait_error_result;
        [exact Hx | apply internal_not_ok]).
  assert (Htxerr : forall d t, fido_dev_open_tx e dev path = (FIDO_ERR_TX, d, t) ->
                   open_wait b e dev path ms = (FIDO_ERR_TX, d, t))
    by (intros d t Hx; apply open_wait_error_result;
        [exact Hx | apply tx_not_ok]).
  destruct (io_open (info_io (dev_info dev))) as [fopen|] eqn:Ho.
  2:{ left. rewrite (Hinval []).
      - unfold rcode, rdev, rtrace. simpl. auto.
      - unfold fido_dev_open_tx. now rewrite Hclosed, Ho. }
  destruct (io_close (info_io (dev_info dev))) as [fclose|] eqn:Hc.
  2:{ left. rewrite (Hinval []).
      - unfold rcode, rdev, rtrace. simpl. auto.
      - unfold fido_dev_open_tx. now rewrite Hclosed, Ho, Hc. }
  pose proof (open_tx_closed e dev path fopen fclose Hclosed Ho Hc) as Htx.
  cbv zeta in Htx. fold cmd in Htx.
  set (n := snd (obtain_nonce e (dev_nonce dev))) in *.
  destruct (fst (obtain_nonce e (dev_nonce dev)) <? 0).
  { left. rewrite (Hinternal _ _ Htx). unfold rcode, rdev, rtrace. simpl. auto. }
  destruct (env_io_open e fopen path) as [h|] eqn:Hopen.
  2:{ right. left. exists fopen. rewrite (Hinternal _ _ Htx).
      unfold rcode, rdev, rtrace. simpl. auto. }
  set (dev2 := set_io_handle (set_nonce dev n) (Some h)) in *.
  destruct (Z.ltb_spec (env_fido_tx e dev2 cmd (buf_u64 n)) 0) as [Hr | Hr].
  { right. right. left.
    exists fopen, fclose, h, n, (env_fido_tx e dev2 cmd (buf_u64 n)).
    rewrite (Htxerr _ _ Htx). unfold rcode, rdev, rtrace. simpl. auto 10. }
  destruct (open_wait_tx_ok b e dev dev2 path ms _ Htx) as (Hcode & Hdev & Htrace).
  rewrite Hcode, Hdev, Htrace.
  pose proof (open_rx_cases b e dev2 ms) as Hcases. cbv zeta in Hcases.
  fold cmd in Hcases.
  destruct Hcases as [(Hok & _ & Hsize & _ & Hh & _ & Ht) | (Hrx & _ & Hh & Ht)].
  - right. right. right. right.
    exists fopen, h, n, (env_fido_tx e dev2 cmd (buf_u64 n)).
    rewrite Hok, Hh, Ht, Hsize. simpl. auto.
  - right. right. right. left.
    exists fopen, fclose, h, n, (env_fido_tx e dev2 cmd (buf_u64 n)),
      (fst (env_fido_rx e dev2 cmd ms)).
    rewrite Hrx, Hh, Ht. simpl. rewrite Hc. auto 10.
Qed.

Lemma dev_eta (d : fido_dev_t) :
  d = {| dev_nonce := dev_nonce d; dev_attr := dev_attr d; dev_cid := dev_cid d;
         dev_io_handle := dev_io_handle d; dev_info := dev_info d |}.
Proof. now destruct d. Qed.

(** What a handshake that returned [FIDO_OK] found and left. *)
Lemma open_wait_ok_inv (b : build) (e : env) (dev : fido_dev_t)
    (path : option string) (ms : Z) :
  rcode (open_wait b e dev path ms) = FIDO_OK ->
  exists fopen fclose h n reply,
    dev_io_handle dev = None /\
    io_open (info_io (dev_info dev)) = Some fopen /\
    io_close (info_io (dev_info dev)) = Some fclose /\
    obtain_nonce e (dev_nonce dev) = (0, n) /\
    env_io_open e fopen path = Some h /\
    let dev2 := set_io_handle (set_nonce dev n) (Some h) in
    let cmd := uint8 (Z.lor CTAP_FRAME_INIT CTAP_CMD_INIT) in
    0 <= env_fido_tx e dev2 cmd (buf_u64 n) /\
    env_fido_rx e dev2 cmd ms = (sizeof_attr, reply) /\
    0 <= sizeof_attr /\
    (FIDO_FUZZ b = false -> attr_nonce reply = n) /\
    rdev (open_wait b e dev path ms) =
      {| dev_nonce := n;
         dev_attr := if FIDO_FUZZ b then set_attr_nonce reply n else reply;
         dev_cid := attr_cid reply;
         dev_io_handle := Some h;
         dev_info := dev_info dev |}.
Proof.
  intros Hok.
  destruct (fido_dev_open_tx e dev path) as [[r dev1] t1] eqn:Htx.
  destruct (Z.eq_dec r FIDO_OK) as [-> | Hne].
  2:{ rewrite (open_wait_error_result b e dev dev1 path ms r t1 Htx Hne) in Hok.
      contradiction. }
  destruct (open_tx_ok_inv e dev dev1 path t1 Htx)
    as (fopen & fclose & rc & n & h & Hclosed & Ho & Hc & Hn & Hrc & Hopen
        & Hdev1 & Hsent & _).
  destruct (open_wait_tx_ok b e dev dev1 path ms t1 Htx) as (Hcode & Hdev & _).
  rewrite Hcode in Hok. rewrite Hdev.
  pose proof (open_rx_cases b e dev1 ms) as Hcases. cbv zeta in Hcases.
  destruct Hcases as [(_ & Hpos & Hsize & Hecho & Hh & Hcid & _) | (Hrx & _)].
  2:{ rewrite Hrx in Hok. now apply rx_not_ok in Hok. }
  assert (Hzero : rc = 0).
  { pose proof (obtain_nonce_code e (dev_nonce dev)) as Hcodes.
    rewrite Hn in Hcodes. simpl in Hcodes. lia. }
  subst rc.
  pose proof (open_rx_attr b e dev1 ms) as Hattr. cbv zeta in Hattr.
  pose proof (open_rx_nonce b e dev1 ms) as Hnonce.
  pose proof (open_rx_info b e dev1 ms) as Hinfo.
  destruct (env_fido_rx e dev1 _ ms) as [k reply] eqn:Hrx.
  simpl in Hpos, Hsize, Hecho, Hcid, Hattr. subst k.
  exists fopen, fclose, h, n, reply.
  assert (Hn1 : dev_nonce dev1 = n) by (subst dev1; reflexivity).
  assert (Hh1 : dev_io_handle dev1 = Some h) by (subst dev1; reflexivity).
  assert (Hi1 : dev_info dev1 = dev_info dev) by (subst dev1; reflexivity).
  rewrite Hn1 in *.
  split; [exact Hclosed|]. split; [exact Ho|]. split; [exact Hc|].
  split; [exact Hn|]. split; [exact Hopen|]. cbv zeta. rewrite <- Hdev1.
  split; [exact Hsent|]. split; [exact Hrx|]. split; [exact Hpos|].
  split; [exact Hecho|].
  rewrite (dev_eta (rdev (fido_dev_open_rx b e dev1 ms))).
  rewrite Hnonce, Hattr, Hcid, Hh, Hh1, Hinfo, Hi1.
  destruct (Z.leb_spec 0 sizeof_attr); [|lia]. reflexivity.
Qed.

(** An open on a session that is already open is turned away at once. *)
Lemma open_wait_already_open (b : build) (e : env) (dev : fido_dev_t)
    (path : option string) (ms : Z) :
  dev_io_handle dev <> None ->
  open_wait b e dev path ms = (FIDO_ERR_INVALID_ARGUMENT, dev, []).
Proof.
  intros Hopen. apply open_wait_error_result; [|apply invalid_argument_not_ok].
  unfold fido_dev_open_tx. destruct (dev_io_handle dev); [reflexivity | congruence].
Qed.

(** X1: when no nonce can be obtained (the random device does not open,
    or the read does not return eight bytes), [fido_dev_open] on a closed
    session with a usable vtable returns [FIDO_ERR_INTERNAL] without any
    call through the vtable or the transport; only [dev->nonce] may have
    changed. *)
Theorem open_without_nonce (b : build) (e : env) (dev : fido_dev_t)
    (path : option string) :
  dev_io_handle dev = None ->
  io_open (info_io (dev_info dev)) <> None ->
  io_close (info_io (dev_info dev)) <> None ->
  env_random_fd e < 0 \/
  fst (env_random_read e (env_random_fd e) (dev_nonce dev)) <> 8 ->
  let out := fido_dev_open b e dev path in
  rcode out = FIDO_ERR_INTERNAL /\
  rtrace out = [] /\
  rdev out = set_nonce dev (dev_nonce (rdev out)).
Proof.
  intros Hclosed Ho Hc Hwhy out. subst out.
  unfold fido_dev_open, fido_dev_open_wait.
  destruct (io_open (info_io (dev_info dev))) as [fopen|] eqn:Hfo; [|congruence].
  destruct (io_close (info_io (dev_info dev))) as [fclose|] eqn:Hfc; [|congruence].
  pose proof (open_tx_closed e dev path fopen fclose Hclosed Hfo Hfc) as Htx.
  cbv zeta in Htx. rewrite (obtain_nonce_fails e _ Hwhy) in Htx. simpl in Htx.
  rewrite (open_wait_error_result b e dev _ path (-1) _ _ Htx internal_not_ok).
  repeat split.
Qed.

(** X2: the calls [fido_dev_open] makes on a closed session follow one
    of five shapes: none; an [open] that returned NULL; open, send,
    close when the send failed; open, send, receive, close when the
    reply was refused; open, send, receive on success.  A handle that
    was opened is either kept in the session ([FIDO_OK]) or closed once,
    through the vtable's [close]; the receive waits without a timeout. *)
Theorem open_handle_discipline (b : build) (e : env) (dev : fido_dev_t)
    (path : option string) :
  dev_io_handle dev = None ->
  let out := fido_dev_open b e dev path in
  let cmd := 0x86 in
  (rtrace out = [] /\ dev_io_handle (rdev out) = None /\
   (rcode out = FIDO_ERR_INVALID_ARGUMENT \/ rcode out = FIDO_ERR_INTERNAL))
  \/
  (exists fopen,
     io_open (info_io (dev_info dev)) = Some fopen /\
     rtrace out = [EvIoOpen fopen path None] /\
     dev_io_handle (rdev out) = None /\ rcode out = FIDO_ERR_INTERNAL)
  \/
  (exists fopen fclose h n r,
     io_open (info_io (dev_info dev)) = Some fopen /\
     io_close (info_io (dev_info dev)) = Some fclose /\
     r < 0 /\
     rtrace out = [EvIoOpen fopen path (Some h);
                   EvTx (dev_cid dev) cmd (buf_u64 n) r;
                   EvIoClose (Some fclose) (Some h)] /\
     dev_io_handle (rdev out) = None /\ rcode out = FIDO_ERR_TX)
  \/
  (exists fopen fclose h n r k,
     io_open (info_io (dev_info dev)) = Some fopen /\
     io_close (info_io (dev_info dev)) = Some fclose /\
     0 <= r /\
     rtrace out = [EvIoOpen fopen path (Some h);
                   EvTx (dev_cid dev) cmd (buf_u64 n) r;
                   EvRx (dev_cid dev) cmd (-1) k;
                   EvIoClose (Some fclose) (Some h)] /\
     dev_io_handle (rdev out) = None /\ rcode out = FIDO_ERR_RX)
  \/
  (exists fopen h n r,
     io_open (info_io (dev_info dev)) = Some fopen /\
     0 <= r /\
     rtrace out = [EvIoOpen fopen path (Some h);
                   EvTx (dev_cid dev) cmd (buf_u64 n) r;
                   EvRx (dev_cid dev) cmd (-1) sizeof_attr] /\
     dev_io_handle (rdev out) = Some h /\ rcode out = FIDO_OK).
Proof.
  intros Hclosed. exact (open_wait_discipline b e dev path (-1) Hclosed).
Qed.

(** X3: when [fido_dev_open] returns [FIDO_OK] the session holds the
    handle the vtable's [open] returned, the nonce that was sent, the
    reply as its attributes (with the nonce overwritten in a fuzzing
    build) and the channel id of the reply; [dev_info] is as before. *)
Theorem open_ok_state (b : build) (e : env) (dev : fido_dev_t)
    (path : option string) :
  let out := fido_dev_open b e dev path in
  rcode out = FIDO_OK ->
  exists fopen h n reply,
    io_open (info_io (dev_info dev)) = Some fopen /\
    env_io_open e fopen path = Some h /\
    obtain_nonce e (dev_nonce dev) = (0, n) /\
    env_fido_rx e (set_io_handle (set_nonce dev n) (Some h)) 0x86 (-1) =
      (sizeof_attr, reply) /\
    rdev out =
      {| dev_nonce := n;
         dev_attr := if FIDO_FUZZ b then set_attr_nonce reply n else reply;
         dev_cid := attr_cid reply;
         dev_io_handle := Some h;
         dev_info := dev_info dev |} /\
    attr_nonce (dev_attr (rdev out)) = n /\
    fido_dev_protocol (rdev out) = attr_protocol reply /\
    fido_dev_major (rdev out) = attr_major reply /\
    fido_dev_minor (rdev out) = attr_minor reply /\
    fido_dev_build (rdev out) = attr_build reply /\
    fido_dev_flags (rdev out) = attr_flags reply.
Proof.
  intros out Hok. subst out. unfold fido_dev_open, fido_dev_open_wait in *.
  destruct (open_wait_ok_inv b e dev path (-1) Hok)
    as (fopen & fclose & h & n & reply & _ & Ho & _ & Hn & Hopen & Hrest).
  cbv zeta in Hrest. destruct Hrest as (_ & Hrx & _ & Hecho & Hdev).
  exists fopen, h, n, reply. rewrite Hdev.
  repeat (split; [assumption || reflexivity|]).
  unfold fido_dev_protocol, fido_dev_major, fido_dev_minor, fido_dev_build,
    fido_dev_flags.
  destruct (FIDO_FUZZ b); simpl; repeat split; auto.
Qed.

(** X4: outside fuzzing builds, [fido_dev_open] returns [FIDO_OK]
    exactly when the session is closed and the handshake goes through:
    [open] and [close] are in the vtable, a nonce is obtained, [open]
    yields a handle, the request is sent, and the reply has the size of
    the attribute structure and echoes the nonce. *)
Theorem open_ok_iff (b : build) (e : env) (dev : fido_dev_t)
    (path : option string) :
  FIDO_FUZZ b = false ->
  rcode (fido_dev_open b e dev path) = FIDO_OK <->
  dev_io_handle dev = None /\ cooperative e dev path (-1).
Proof.
  intros Hfuzz. unfold fido_dev_open, fido_dev_open_wait. split.
  - intros Hok.
    destruct (open_wait_ok_inv b e dev path (-1) Hok)
      as (fopen & fclose & h & n & reply & Hclosed & Ho & Hc & Hn & Hopen & Hrest).
    cbv zeta in Hrest. destruct Hrest as (Htx & Hrx & Hsize & Hecho & _).
    split; [exact Hclosed|].
    exists fopen, fclose, n, h, reply. cbv zeta. auto 10.
  - intros [Hclosed Hco]. now apply open_wait_succeeds.
Qed.

(** X5: a fuzzing build does not check the nonce: once the request is
    out, any reply of the right size is accepted, whatever nonce it
    carries, and the nonce stored with the attributes is the one sent. *)
Theorem fuzz_build_skips_nonce_check (b : build) (e : env)
    (dev dev1 : fido_dev_t) (path : option string) (t1 : list event)
    (reply : fido_ctap_info_t) :
  FIDO_FUZZ b = true ->
  fido_dev_open_tx e dev path = (FIDO_OK, dev1, t1) ->
  env_fido_rx e dev1 0x86 (-1) = (sizeof_attr, reply) ->
  0 <= sizeof_attr ->
  let out := fido_dev_open b e dev path in
  rcode out = FIDO_OK /\
  dev_attr (rdev out) = set_attr_nonce reply (dev_nonce dev1) /\
  dev_cid (rdev out) = attr_cid reply /\
  dev_io_handle (rdev out) = dev_io_handle dev1.
Proof.
  intros Hfuzz Htx Hrx Hsize out. subst out.
  unfold fido_dev_open, fido_dev_open_wait.
  destruct (open_wait_tx_ok b e dev dev1 path (-1) t1 Htx) as (Hcode & Hdev & _).
  rewrite Hcode, Hdev.
  pose proof (open_rx_attr b e dev1 (-1)) as Hattr. cbv zeta in Hattr.
  pose proof (open_rx_cases b e dev1 (-1)) as Hcases. cbv zeta in Hcases.
  change (uint8 (Z.lor CTAP_FRAME_INIT CTAP_CMD_INIT)) with 0x86 in Hattr, Hcases.
  rewrite Hrx in Hattr, Hcases. simpl in Hattr, Hcases. rewrite Hfuzz in Hattr.
  destruct (Z.leb_spec 0 sizeof_attr); [|lia]. simpl in Hattr.
  destruct Hcases as [(Hok & _ & _ & _ & Hh & Hcid & _) | (_ & Hwhy & _)].
  - auto.
  - exfalso. destruct Hwhy as [Hneg | [Hne | [Hnofuzz _]]];
      [lia | congruence | congruence].
Qed.

End HandshakeFacts.

(** * Further properties of the session's life cycle *)

Section LifecycleFacts.
Context `{fido_h} `{!fido_h_errors}.

(** X6: a second [fido_dev_close] always returns
    [FIDO_ERR_INVALID_ARGUMENT], changes nothing and calls nothing:
    the vtable's [close] is never called twice for one handle. *)
Theorem close_twice_rejected (dev : fido_dev_t) :
  let once := rdev (fido_dev_close dev) in
  fido_dev_close once = (FIDO_ERR_INVALID_ARGUMENT, once, []).
Proof.
  unfold fido_dev_close.
  destruct (dev_io_handle dev) eqn:Hh, (io_close (info_io (dev_info dev))) eqn:Hc;
    unfold rdev; simpl; rewrite ?Hh, ?Hc; reflexivity.
Qed.

(** The transport calls of an open carry the channel id the session had
    when the open began. *)
Lemma open_wait_tx_cid (b : build) (e : env) (dev : fido_dev_t)
    (path : option string) (ms : Z) (cid cmd r : Z) (buf : tx_buf) :
  In (EvTx cid cmd buf r) (rtrace (open_wait b e dev path ms)) ->
  cid = dev_cid dev.
Proof.
  destruct (dev_io_handle dev) as [h|] eqn:Hh.
  { rewrite open_wait_already_open by congruence. intros []. }
  pose proof (open_wait_discipline b e dev path ms Hh) as Hshape.
  cbv zeta in Hshape.
  destruct Hshape as [(-> & _) | [(fo & _ & -> & _) | [(fo & fc & h & n & r' & _ & _ & _ & -> & _)
    | [(fo & fc & h & n & r' & k & _ & _ & _ & -> & _)
      | (fo & h & n & r' & _ & _ & -> & _)]]]]; simpl; intros Hin;
    repeat (destruct Hin as [Hin | Hin]; [congruence|]); contradiction.
Qed.

(** X7: [fido_dev_close] does not reset the channel id, and an open
    sends its INIT request on the channel id the session holds.  So
    after a successful open and a close, the next open sends INIT on
    the channel the device assigned before, not on the channel the
    session started with. *)
Theorem reopen_sends_init_on_old_channel (b : build) (e e' : env)
    (dev : fido_dev_t) (path path' : option string) :
  let opened := rdev (fido_dev_open b e dev path) in
  let closed := rdev (fido_dev_close opened) in
  rcode (fido_dev_open b e dev path) = FIDO_OK ->
  rcode (fido_dev_close opened) = FIDO_OK /\
  dev_io_handle closed = None /\
  dev_cid closed = attr_cid (dev_attr opened) /\
  forall cid cmd buf r,
    In (EvTx cid cmd buf r) (rtrace (fido_dev_open b e' closed path')) ->
    cid = attr_cid (dev_attr opened).
Proof.
  intros opened closed Hok. subst closed opened.
  unfold fido_dev_open, fido_dev_open_wait in *.
  destruct (open_wait_ok_inv b e dev path (-1) Hok)
    as (fopen & fclose & h & n & reply & _ & _ & Hc & _ & _ & Hrest).
  cbv zeta in Hrest. destruct Hrest as (_ & _ & _ & _ & Hdev).
  rewrite Hdev.
  assert (Hclose : fido_dev_close
            {| dev_nonce := n;
               dev_attr := if FIDO_FUZZ b then set_attr_nonce reply n else reply;
               dev_cid := attr_cid reply; dev_io_handle := Some h;
               dev_info := dev_info dev |} =
          (FIDO_OK,
           {| dev_nonce := n;
              dev_attr := if FIDO_FUZZ b then set_attr_nonce reply n else reply;
              dev_cid := attr_cid reply; dev_io_handle := None;
              dev_info := dev_info dev |},
           [EvIoClose (Some fclose) (Some h)])).
  { unfold fido_dev_close. simpl. now rewrite Hc. }
  rewrite Hclose. unfold rcode, rdev. simpl.
  assert (Hcid : attr_cid (if FIDO_FUZZ b then set_attr_nonce reply n else reply)
                 = attr_cid reply) by now destruct (FIDO_FUZZ b).
  rewrite Hcid. repeat split.
  intros cid cmd buf r Hin. now apply open_wait_tx_cid in Hin.
Qed.

(** X8: a failed [fido_dev_open] leaves the channel id and [dev_info]
    (path, vtable) as they were. *)
Theorem failed_open_keeps_channel (b : build) (e : env) (dev : fido_dev_t)
    (path : option string) :
  let out := fido_dev_open b e dev path in
  rcode out <> FIDO_OK ->
  dev_cid (rdev out) = dev_cid dev /\ dev_info (rdev out) = dev_info dev.
Proof. intros out Herr. now apply open_wait_error_keeps. Qed.

(** X9: the reply is stored before it is checked.  Outside fuzzing
    builds, once the request is out, [dev->attr] holds what [fido_rx]
    left in the buffer whether the reply is accepted or not; after a
    refused reply the session is closed, on its old channel id, and the
    attribute readers return the refused reply's values. *)
Theorem rejected_reply_is_kept (b : build) (e : env) (dev dev1 : fido_dev_t)
    (path : option string) (t1 : list event) :
  FIDO_FUZZ b = false ->
  fido_dev_open_tx e dev path = (FIDO_OK, dev1, t1) ->
  let reply := snd (env_fido_rx e dev1 0x86 (-1)) in
  let out := fido_dev_open b e dev path in
  dev_attr (rdev out) = reply /\
  fido_dev_flags (rdev out) = attr_flags reply /\
  (rcode out <> FIDO_OK ->
   dev_io_handle (rdev out) = None /\ dev_cid (rdev out) = dev_cid dev).
Proof.
  intros Hfuzz Htx reply out. subst out reply.
  unfold fido_dev_open, fido_dev_open_wait.
  destruct (open_wait_tx_ok b e dev dev1 path (-1) t1 Htx) as (Hcode & Hdev & _).
  pose proof (open_rx_attr b e dev1 (-1)) as Hattr. cbv zeta in Hattr.
  rewrite Hfuzz, andb_false_r in Hattr.
  unfold fido_dev_flags. rewrite Hdev, Hattr.
  split; [reflexivity|]. split; [reflexivity|].
  intros Herr. rewrite Hcode in Herr.
  pose proof (open_rx_cases b e dev1 (-1)) as Hcases. cbv zeta in Hcases.
  destruct Hcases as [(Hok & _) | (_ & _ & Hh & _)]; [contradiction|].
  split; [exact Hh|].
  rewrite (open_rx_cid_kept b e dev1 (-1) Herr).
  pose proof (open_tx_cid e dev path) as Hcid. rewrite Htx in Hcid. exact Hcid.
Qed.

Lemma close_info (dev : fido_dev_t) :
  dev_info (rdev (fido_dev_close dev)) = dev_info dev.
Proof.
  unfold fido_dev_close.
  destruct (dev_io_handle dev), (io_close (info_io (dev_info dev))); reflexivity.
Qed.

Lemma set_io_functions_cases (dev : fido_dev_t) (io : option fido_dev_io_t) :
  fido_dev_set_io_functions dev io = (FIDO_ERR_INVALID_ARGUMENT, dev) \/
  exists io', io = Some io' /\ complete io' /\ dev_io_handle dev = None /\
              fido_dev_set_io_functions dev io = (FIDO_OK, set_io dev io').
Proof.
  unfold fido_dev_set_io_functions, complete.
  destruct (dev_io_handle dev); [now left|].
  destruct io as [[[o|] [c|] [r|] [w|]]|]; try now left.
  right. exists {| io_open := Some o; io_close := Some c;
                   io_read := Some r; io_write := Some w |}.
  simpl. repeat split; discriminate.
Qed.

(** X10: every session the API can produce has a complete vtable: all
    four I/O functions are non-null, whatever was opened, closed or
    installed. *)
Theorem reachable_vtable_complete (b : build) (dev : fido_dev_t) :
  reachable b dev -> complete (info_io (dev_info dev)).
Proof.
  induction 1 as [dev_ok info_ok d Hnew | dev_ok m info d Hnew
                 | e d path _ IH | e d _ IH | d _ IH | e d _ IH
                 | d io _ IH | d _ IH | d _ IH].
  - unfold fido_dev_new in Hnew.
    destruct dev_ok, info_ok; simpl in Hnew; inversion Hnew; subst.
    unfold complete. simpl. repeat split; discriminate.
  - unfold fido_dev_new_with_info in Hnew.
    destruct dev_ok; simpl in Hnew; [|discriminate].
    destruct (info_io info) as [[o|] [c|] [r|] [w|]] eqn:Hio; try discriminate.
    unfold copy_fido_dev_info in Hnew.
    destruct (calloc_ok m); simpl in Hnew; inversion Hnew; subst.
    unfold complete. simpl. rewrite Hio. simpl. repeat split; discriminate.
  - unfold fido_dev_open, fido_dev_open_wait. now rewrite open_wait_info.
  - unfold fido_dev_open_with_info, fido_dev_open_wait_with_info.
    now rewrite open_wait_info.
  - now rewrite close_info.
  - unfold fido_dev_cancel. destruct (env_fido_tx e d _ _ <? 0); exact IH.
  - destruct (set_io_functions_cases d io) as [-> | (io' & _ & Hio & _ & ->)];
      [exact IH | exact Hio].
  - exact IH.
  - exact IH.
Qed.

(** X11: in every session the API can produce, an open handle means a
    completed handshake: the channel id is the one in the stored reply
    and the nonce stored with the reply is the nonce of the session. *)
Theorem reachable_open_channel (b : build) (dev : fido_dev_t) :
  reachable b dev ->
  dev_io_handle dev <> None ->
  dev_cid dev = attr_cid (dev_attr dev) /\
  attr_nonce (dev_attr dev) = dev_nonce dev.
Proof.
  assert (Hopen : forall e d path ms,
            (dev_io_handle d <> None ->
             dev_cid d = attr_cid (dev_attr d) /\
             attr_nonce (dev_attr d) = dev_nonce d) ->
            dev_io_handle (rdev (open_wait b e d path ms)) <> None ->
            dev_cid (rdev (open_wait b e d path ms)) =
              attr_cid (dev_attr (rdev (open_wait b e d path ms))) /\
            attr_nonce (dev_attr (rdev (open_wait b e d path ms))) =
              dev_nonce (rdev (open_wait b e d path ms))).
  { intros e d path ms IH Hh.
    destruct (dev_io_handle d) as [h|] eqn:Hd.
    { rewrite open_wait_already_open in * by congruence.
      apply IH. discriminate. }
    destruct (Z.eq_dec (rcode (open_wait b e d path ms)) FIDO_OK) as [Hok | Herr].
    - destruct (open_wait_ok_inv b e d path ms Hok)
        as (fo & fc & h & n & reply & _ & _ & _ & _ & _ & Hrest).
      cbv zeta in Hrest. destruct Hrest as (_ & _ & _ & Hecho & ->). simpl.
      destruct (FIDO_FUZZ b); simpl; auto.
    - exfalso. apply Hh. now apply open_wait_error_closed. }
  induction 1 as [dev_ok info_ok d Hnew | dev_ok m info d Hnew
                 | e d path _ IH | e d _ IH | d _ IH | e d _ IH
                 | d io _ IH | d _ IH | d _ IH].
  - unfold fido_dev_new in Hnew.
    destruct dev_ok, info_ok; simpl in Hnew; inversion Hnew; subst.
    simpl. congruence.
  - unfold fido_dev_new_with_info in Hnew.
    destruct dev_ok; simpl in Hnew; [|discriminate].
    destruct (info_io info) as [[o|] [c|] [r|] [w|]]; try discriminate.
    destruct (copy_fido_dev_info m info); inversion Hnew; subst.
    simpl. congruence.
  - now apply Hopen.
  - now apply Hopen.
  - unfold fido_dev_close.
    destruct (dev_io_handle d) eqn:Hh, (io_close (info_io (dev_info d))) eqn:Hc;
      unfold rdev; simpl; rewrite ?Hh; intros Hx;
      first [now contradict Hx | apply IH; discriminate].
  - unfold fido_dev_cancel. destruct (env_fido_tx e d _ _ <? 0); exact IH.
  - destruct (set_io_functions_cases d io) as [-> | (io' & _ & _ & Hclosed & ->)];
      [exact IH|]. simpl. intros Hx. now contradict Hx.
  - exact IH.
  - exact IH.
Qed.

(** X12: the vtable that [fido_dev_set_io_functions] installed is the
    one used afterwards: [fido_dev_open] calls the supplied [open], with
    the path it was given, closes through the supplied [close], and a
    later [fido_dev_close] calls the supplied [close] on the handle. *)
Theorem installed_vtable_is_used (b : build) (e : env) (dev : fido_dev_t)
    (o c r w : io_fn) (path : option string) :
  dev_io_handle dev = None ->
  let io := {| io_open := Some o; io_close := Some c;
               io_read := Some r; io_write := Some w |} in
  let dev' := snd (fido_dev_set_io_functions dev (Some io)) in
  let out := fido_dev_open b e dev' path in
  (forall f p ret, In (EvIoOpen f p ret) (rtrace out) -> f = o /\ p = path) /\
  (forall f h, In (EvIoClose f h) (rtrace out) -> f = Some c) /\
  (forall h, dev_io_handle (rdev out) = Some h ->
     fido_dev_close (rdev out) =
       (FIDO_OK, set_io_handle (rdev out) None, [EvIoClose (Some c) (Some h)])).
Proof.
  intros Hclosed io dev' out.
  assert (Hdev' : dev' = set_io dev io).
  { subst dev'. unfold fido_dev_set_io_functions. now rewrite Hclosed. }
  assert (Hclosed' : dev_io_handle dev' = None) by (now rewrite Hdev').
  assert (Ho : io_open (info_io (dev_info dev')) = Some o) by (now rewrite Hdev').
  assert (Hc : io_close (info_io (dev_info dev')) = Some c) by (now rewrite Hdev').
  clearbody dev'. subst out. unfold fido_dev_open, fido_dev_open_wait.
  pose proof (open_wait_info b e dev' path (-1)) as Hinfo.
  pose proof (open_wait_discipline b e dev' path (-1) Hclosed') as Hshape.
  cbv zeta in Hshape. rewrite Ho, Hc in Hshape.
  split; [|split].
  - intros f p ret Hin.
    destruct Hshape as [(Ht & _) | [(fo & Hfo & Ht & _)
      | [(fo & fc & h & n & r' & Hfo & _ & _ & Ht & _)
        | [(fo & fc & h & n & r' & k & Hfo & _ & _ & Ht & _)
          | (fo & h & n & r' & Hfo & _ & Ht & _)]]]];
      rewrite Ht in Hin; simpl in Hin;
      repeat (destruct Hin as [Hin | Hin]; [try discriminate|]);
      try contradiction; inversion Hin; subst; split; congruence.
  - intros f h Hin.
    destruct Hshape as [(Ht & _) | [(fo & Hfo & Ht & _)
      | [(fo & fc & h' & n & r' & _ & Hfc & _ & Ht & _)
        | [(fo & fc & h' & n & r' & k & _ & Hfc & _ & Ht & _)
          | (fo & h' & n & r' & Hfo & _ & Ht & _)]]]];
      rewrite Ht in Hin; simpl in Hin;
      repeat (destruct Hin as [Hin | Hin]; [try discriminate|]);
      try contradiction; inversion Hin; subst; congruence.
  - intros h Hh. unfold fido_dev_close. now rewrite Hh, Hinfo, Hc.
Qed.

(** X13: [fido_dev_set_io_functions] returns [FIDO_OK] exactly when no
    handle is open and the table has all four functions; in every other
    case (a handle open, a NULL table, any function missing) it returns
    [FIDO_ERR_INVALID_ARGUMENT] and the session is unchanged, so an
    incomplete vtable is never installed. *)
Theorem set_io_functions_ok_iff (dev : fido_dev_t) (io : option fido_dev_io_t) :
  (fst (fido_dev_set_io_functions dev io) = FIDO_OK <->
   dev_io_handle dev = None /\ exists io', io = Some io' /\ complete io') /\
  (fst (fido_dev_set_io_functions dev io) <> FIDO_OK ->
   fido_dev_set_io_functions dev io = (FIDO_ERR_INVALID_ARGUMENT, dev)).
Proof.
  pose proof invalid_argument_not_ok as Hne.
  split.
  - split.
    + destruct (set_io_functions_cases dev io) as [-> | (io' & -> & Hio & Hc & _)].
      * simpl. congruence.
      * eauto.
    + intros (Hclosed & io' & -> & (Ho & Hc & Hr & Hw)).
      unfold fido_dev_set_io_functions. rewrite Hclosed.
      destruct io' as [[o|] [c|] [r|] [w|]]; simpl in *; congruence.
  - destruct (set_io_functions_cases dev io) as [-> | (io' & _ & _ & _ & ->)];
      simpl; congruence.
Qed.

(** X14: a session fresh from either constructor is closed, on the
    broadcast channel, with zeroed attributes, so it does not report
    FIDO2 whatever the CBOR bit is; its vtable is complete; and closing
    it is an error that changes nothing. *)
Theorem new_session_state (d : fido_dev_t) :
  (exists dev_ok info_ok, fido_dev_new dev_ok info_ok = Some d) \/
  (exists dev_ok m info, fido_dev_new_with_info dev_ok m info = Some d) ->
  dev_io_handle d = None /\
  dev_cid d = 0xFFFFFFFF /\
  dev_attr d = zero_attr /\
  fido_dev_is_fido2 d = false /\
  complete (info_io (dev_info d)) /\
  fido_dev_close d = (FIDO_ERR_INVALID_ARGUMENT, d, []).
Proof.
  intros Hnew.
  assert (Hstate : dev_io_handle d = None /\ dev_cid d = 0xFFFFFFFF /\
                   dev_attr d = zero_attr /\ complete (info_io (dev_info d))).
  { destruct Hnew as [(dev_ok & info_ok & Hnew) | (dev_ok & m & info & Hnew)].
    - unfold fido_dev_new in Hnew.
      destruct dev_ok, info_ok; simpl in Hnew; inversion Hnew; subst.
      unfold complete. simpl. repeat split; discriminate.
    - unfold fido_dev_new_with_info in Hnew.
      destruct dev_ok; simpl in Hnew; [|discriminate].
      destruct (info_io info) as [[o|] [c|] [r|] [w|]] eqn:Hio; try discriminate.
      unfold copy_fido_dev_info in Hnew.
      destruct (calloc_ok m); simpl in Hnew; inversion Hnew; subst.
      unfold complete. simpl. rewrite Hio. simpl. repeat split; discriminate. }
  destruct Hstate as (Hh & Hcid & Hattr & Hio).
  repeat split; try assumption; try apply Hio.
  - unfold fido_dev_is_fido2. rewrite Hattr. reflexivity.
  - unfold fido_dev_close. now rewrite Hh.
Qed.

End LifecycleFacts.

Section InfoFacts.
Context `{fido_h} `{!fido_h_errors}.

(** X15: [fido_dev_new_with_info] returns a session exactly when both
    allocations succeed and the entry's vtable is complete.  The session
    carries the entry's vtable.  The result of [strdup] is not checked:
    when copying the path fails the session is still returned, with a
    NULL path, and [fido_dev_open_with_info] then hands NULL to the
    vtable's [open]. *)
Theorem new_with_info_spec (dev_ok : bool) (m : heap) (info : fido_dev_info_t) :
  ((exists d, fido_dev_new_with_info dev_ok m info = Some d) <->
   dev_ok = true /\ calloc_ok m = true /\ complete (info_io info)) /\
  (forall d, fido_dev_new_with_info dev_ok m info = Some d ->
     info_io (dev_info d) = info_io info /\
     (forall p, info_path info = Some p ->
        info_path (dev_info d) = if strdup_ok m p then Some p else None) /\
     (forall p b e f pth ret,
        info_path info = Some p -> strdup_ok m p = false ->
        In (EvIoOpen f pth ret) (rtrace (fido_dev_open_with_info b e d)) ->
        pth = None)).
Proof.
  unfold fido_dev_new_with_info, copy_fido_dev_info, complete. split.
  - split.
    + intros [d Hnew]. destruct dev_ok; simpl in Hnew; [|discriminate].
      destruct (info_io info) as [[o|] [c|] [r|] [w|]]; try discriminate.
      destruct (calloc_ok m); simpl in Hnew; [|discriminate].
      simpl. repeat split; discriminate.
    + intros (-> & -> & Ho & Hc & Hr & Hw). simpl.
      destruct (info_io info) as [[o|] [c|] [r|] [w|]]; simpl in *;
        try congruence; eauto.
  - intros d Hnew. destruct dev_ok; simpl in Hnew; [|discriminate].
    destruct (info_io info) as [[o|] [c|] [r|] [w|]] eqn:Hio; try discriminate.
    destruct (calloc_ok m); simpl in Hnew; inversion Hnew; subst; clear Hnew.
    simpl. split; [reflexivity|]. split.
    + intros p ->. reflexivity.
    + intros p b e f pth ret Hp Hdup.
      unfold fido_dev_open_with_info, fido_dev_open_wait_with_info. simpl.
      rewrite Hp. simpl. rewrite Hdup.
      match goal with |- context [open_wait b e ?d None (-1)] => set (dev := d) end.
      pose proof (open_wait_discipline b e dev None (-1) eq_refl) as Hshape.
      cbv zeta in Hshape. intros Hin.
      destruct Hshape as [(Ht & _) | [(fo & _ & Ht & _)
        | [(fo & fc & h & n & r' & _ & _ & _ & Ht & _)
          | [(fo & fc & h & n & r' & k & _ & _ & _ & Ht & _)
            | (fo & h & n & r' & _ & _ & Ht & _)]]]];
        rewrite Ht in Hin; simpl in Hin;
        repeat (destruct Hin as [Hin | Hin]; [try discriminate|]);
        try contradiction; now inversion Hin.
Qed.

End InfoFacts.

Section ForceFacts.
Context `{fido_h}.
Variable k : Z.
Hypothesis k_in_byte : 0 <= k < 8.
Hypothesis cbor_is_bit_k : FIDO_CAP_CBOR = 2 ^ k.

(** X16: of two forced settings the last one wins:
    [fido_dev_force_u2f] after [fido_dev_force_fido2] leaves the session
    [fido_dev_force_u2f] alone would, and the other way round. *)
Theorem force_last_wins (dev : fido_dev_t) :
  0 <= attr_flags (dev_attr dev) < 256 ->
  fido_dev_force_u2f (fido_dev_force_fido2 dev) = fido_dev_force_u2f dev /\
  fido_dev_force_fido2 (fido_dev_force_u2f dev) = fido_dev_force_fido2 dev.
Proof.
  intros Hf. split.
  - apply same_session_but_flags; [reflexivity|].
    apply Z.bits_inj. intros i.
    rewrite (force_u2f_bits k k_in_byte cbor_is_bit_k (fido_dev_force_fido2 dev))
      by apply force_fido2_range.
    rewrite (force_fido2_bits k k_in_byte cbor_is_bit_k dev) by exact Hf.
    rewrite (force_u2f_bits k k_in_byte cbor_is_bit_k dev) by exact Hf.
    destruct (Z.testbit (attr_flags (dev_attr dev)) i), (i =? k); reflexivity.
  - apply same_session_but_flags; [reflexivity|].
    apply Z.bits_inj. intros i.
    rewrite (force_fido2_bits k k_in_byte cbor_is_bit_k (fido_dev_force_u2f dev))
      by apply force_u2f_range.
    rewrite (force_u2f_bits k k_in_byte cbor_is_bit_k dev) by exact Hf.
    rewrite (force_fido2_bits k k_in_byte cbor_is_bit_k dev) by exact Hf.
    destruct (Z.testbit (attr_flags (dev_attr dev)) i), (i =? k); reflexivity.
Qed.

End ForceFacts.

(** * Further properties of the registry *)

(** Writing [k] at index [i] of [l], all of it in range. *)
Lemma inserts_in_range {A : Type} (i : nat) (k l : list A) :
  (i + length k <= length l)%nat ->
  list_inserts i k l = take i l ++ k ++ drop (i + length k) l.
Proof.
  intros Hfit.
  rewrite <- (take_drop i l) at 1.
  rewrite <- (take_drop (length k) (drop i l)) at 1.
  rewrite drop_drop.
  assert (Hi : i = (length (take i l) + 0)%nat)
    by (rewrite length_take_le; lia).
  rewrite Hi at 1. rewrite list_inserts_app_r.
  rewrite list_inserts_0_r; [reflexivity|].
  rewrite length_take_le; [reflexivity|]. rewrite length_drop. lia.
Qed.

Lemma inserts_take_before {A : Type} (i : nat) (k l : list A) :
  (i + length k <= length l)%nat ->
  take i (list_inserts i k l) = take i l.
Proof.
  intros Hfit. rewrite inserts_in_range by exact Hfit.
  apply take_app_length'. rewrite length_take_le; lia.
Qed.

Lemma inserts_take_through {A : Type} (i : nat) (k l : list A) :
  (i + length k <= length l)%nat ->
  take (i + length k) (list_inserts i k l) = take i l ++ k.
Proof.
  intros Hfit. rewrite inserts_in_range by exact Hfit.
  rewrite app_assoc. apply take_app_length'.
  rewrite length_app, length_take_le; lia.
Qed.

Lemma inserts_drop_after {A : Type} (i j : nat) (k l : list A) :
  (i + length k <= j)%nat -> (i + length k <= length l)%nat ->
  drop j (list_inserts i k l) = drop j l.
Proof.
  intros Hj Hfit. rewrite inserts_in_range by exact Hfit.
  rewrite app_assoc, drop_app_ge
    by (rewrite length_app, length_take_le; lia).
  rewrite length_app, length_take_le by lia.
  rewrite drop_drop. f_equal. lia.
Qed.

Lemma filter_cons_bool {A : Type} (f : A -> bool) (x : A) (l : list A) :
  List.filter f (x :: l) = if f x then x :: List.filter f l else List.filter f l.
Proof. reflexivity. Qed.

Section RegistryMore.
Context `{fido_h}.

Lemma entries_of_cons (impl : manifest_impl) (c : manifest_call)
    (cs : list manifest_call) :
  entries_of impl (c :: cs) = mr_written (call_ret impl c) ++ entries_of impl cs.
Proof. reflexivity. Qed.

(** The list the loop leaves, from [*olen = olen] on. *)
Lemma manifest_loop_devlist (impl : manifest_impl)
    (curr : list dev_manifest_func_t) (devlist : list fido_dev_info_t)
    (ilen olen : Z) :
  0 <= olen <= ilen -> ilen < 2 ^ 64 ->
  ilen <= Z.of_nat (length devlist) ->
  well_behaved impl curr ->
  let out := manifest_loop impl curr devlist ilen olen in
  length (mo_devlist out) = length devlist /\
  take (Z.to_nat (mo_olen out)) (mo_devlist out) =
    take (Z.to_nat olen) devlist ++
    entries_of impl (List.filter (call_ok impl) (mo_calls out)) /\
  drop (Z.to_nat ilen) (mo_devlist out) = drop (Z.to_nat ilen) devlist.
Proof.
  revert devlist olen.
  induction curr as [|m_func next IH];
    intros devlist olen Holen Hilen Hlen Hwb.
  { simpl. now rewrite app_nil_r. }
  destruct (step_facts impl m_func next ilen olen Holen Hilen Hwb)
    as [Hcap Hok].
  destruct (Hwb m_func olen (size_t (ilen - olen)) (or_introl eq_refl))
    as [Hfit _]; [lia | lia |].
  pose proof (manifest_loop_step impl m_func next devlist ilen olen) as Hstep.
  cbv zeta in Hstep.
  set (call := {| mc_func := m_func; mc_off := olen;
                  mc_cap := size_t (ilen - olen) |}) in *.
  change (impl m_func olen (size_t (ilen - olen))) with (call_ret impl call) in *.
  set (w := mr_written (call_ret impl call)) in *.
  assert (Hin : (Z.to_nat olen + length w <= length devlist)%nat) by lia.
  assert (Hafter : (Z.to_nat olen + length w <= Z.to_nat ilen)%nat) by lia.
  destruct Hstep as [(Herr & ->) | [(Hr & _ & ->) | (Hr & _ & ->)]];
    simpl mo_devlist; simpl mo_olen; simpl mo_calls.
  - apply Z.eqb_neq in Herr.
    assert (Hcok : call_ok impl call = false) by exact Herr.
    rewrite filter_cons_bool, Hcok. simpl.
    rewrite length_inserts, app_nil_r, inserts_take_before by exact Hin.
    split; [reflexivity|]. split; [reflexivity|].
    now apply inserts_drop_after.
  - destruct (Hok Hr) as (Hcount & Hsz & Hle). rewrite Hsz, Hcount.
    apply Z.eqb_eq in Hr.
    assert (Hcok : call_ok impl call = true) by exact Hr.
    rewrite filter_cons_bool, Hcok. simpl List.filter.
    rewrite entries_of_cons. fold w.
    change (entries_of impl []) with (@nil fido_dev_info_t).
    rewrite app_nil_r, length_inserts.
    replace (Z.to_nat (olen + Z.of_nat (length w)))
      with (Z.to_nat olen + length w)%nat by lia.
    rewrite inserts_take_through by exact Hin.
    split; [reflexivity|]. split; [reflexivity|].
    now apply inserts_drop_after.
  - destruct (Hok Hr) as (Hcount & Hsz & Hle). rewrite Hsz.
    assert (Hnext : 0 <= olen + mr_olen (call_ret impl call) <= ilen) by lia.
    destruct (IH (list_inserts (Z.to_nat olen) w devlist)
                (olen + mr_olen (call_ret impl call)) Hnext Hilen)
      as (Hl & Ht & Hd).
    { rewrite length_inserts. exact Hlen. }
    { exact (well_behaved_tail _ _ _ Hwb). }
    rewrite Hl, Ht, Hd, length_inserts.
    apply Z.eqb_eq in Hr.
    assert (Hcok : call_ok impl call = true) by exact Hr.
    rewrite filter_cons_bool, Hcok.
    rewrite entries_of_cons. fold w.
    rewrite Hcount.
    replace (Z.to_nat (olen + Z.of_nat (length w)))
      with (Z.to_nat olen + length w)%nat by lia.
    rewrite inserts_take_through by exact Hin.
    rewrite <- app_assoc.
    split; [reflexivity|]. split; [reflexivity|].
    now apply inserts_drop_after.
Qed.

(** X17: with providers that keep to their contract and a list of at
    least [ilen] entries, the first [*olen] entries of the list after
    [fido_dev_info_manifest] are what the successful providers wrote, in
    the order they were called; a failing provider's entries are not
    among them. *)
Theorem manifest_reports_what_was_written (impl : manifest_impl) (g : globals)
    (devlist : list fido_dev_info_t) (ilen : Z) :
  0 <= ilen < 2 ^ 64 ->
  ilen <= Z.of_nat (length devlist) ->
  well_behaved impl (manifest_funcs g) ->
  let out := fido_dev_info_manifest impl g devlist ilen in
  take (Z.to_nat (mo_olen out)) (mo_devlist out) =
    entries_of impl (List.filter (call_ok impl) (mo_calls out)) /\
  Z.of_nat (length (entries_of impl (List.filter (call_ok impl) (mo_calls out))))
    = mo_olen out.
Proof.
  intros Hilen Hlen Hwb out. subst out. unfold fido_dev_info_manifest.
  assert (H0 : 0 <= 0 <= ilen) by lia.
  destruct (manifest_loop_devlist impl (manifest_funcs g) devlist ilen 0
              H0 (proj2 Hilen) Hlen Hwb) as (Hl & Ht & _).
  destruct (manifest_loop_bounds impl (manifest_funcs g) devlist ilen 0
              H0 (proj2 Hilen) Hwb) as (_ & Hbound).
  simpl in Ht. split; [exact Ht|].
  rewrite <- Ht, length_take_le; lia.
Qed.

(** X18: under the same conditions [fido_dev_info_manifest] keeps to
    the capacity: the list keeps its length and every entry from index
    [ilen] on is as it was. *)
Theorem manifest_keeps_to_capacity (impl : manifest_impl) (g : globals)
    (devlist : list fido_dev_info_t) (ilen : Z) :
  0 <= ilen < 2 ^ 64 ->
  ilen <= Z.of_nat (length devlist) ->
  well_behaved impl (manifest_funcs g) ->
  let out := fido_dev_info_manifest impl g devlist ilen in
  length (mo_devlist out) = length devlist /\
  drop (Z.to_nat ilen) (mo_devlist out) = drop (Z.to_nat ilen) devlist.
Proof.
  intros Hilen Hlen Hwb out. subst out. unfold fido_dev_info_manifest.
  assert (H0 : 0 <= 0 <= ilen) by lia.
  destruct (manifest_loop_devlist impl (manifest_funcs g) devlist ilen 0
              H0 (proj2 Hilen) Hlen Hwb) as (Hl & _ & Hd).
  split; assumption.
Qed.

(** X19: the loop trusts the count a provider reports.  When the first
    provider returns [FIDO_OK] with a count above the capacity, [*olen]
    passes [ilen], the test for a full list does not fire, and the next
    provider is called with an offset past the end of the list and the
    wrapped-around capacity [2^64 + ilen - count]. *)
Theorem manifest_trusts_count (impl : manifest_impl) (g : globals)
    (f1 f2 : dev_manifest_func_t) (rest : list dev_manifest_func_t)
    (devlist : list fido_dev_info_t) (ilen count : Z) :
  manifest_funcs g = f1 :: f2 :: rest ->
  0 <= ilen ->
  mr_r (impl f1 0 ilen) = FIDO_OK ->
  mr_olen (impl f1 0 ilen) = count ->
  ilen < count < 2 ^ 64 ->
  exists more,
    mo_calls (fido_dev_info_manifest impl g devlist ilen) =
    {| mc_func := f1; mc_off := 0; mc_cap := ilen |}
    :: {| mc_func := f2; mc_off := count; mc_cap := 2 ^ 64 + ilen - count |}
    :: more.
Proof.
  intros Hfuncs Hilen Hr Hcount Hover.
  unfold fido_dev_info_manifest. rewrite Hfuncs.
  pose proof (manifest_loop_step impl f1 (f2 :: rest) devlist ilen 0) as Hstep.
  cbv zeta in Hstep.
  assert (Hcap : size_t (ilen - 0) = ilen)
    by (rewrite Z.sub_0_r; apply size_t_small; lia).
  rewrite Hcap, Hcount in Hstep. rewrite Hr in Hstep.
  assert (Holen : size_t (0 + count) = count) by (apply size_t_small; lia).
  rewrite Holen in Hstep.
  destruct Hstep as [(Herr & _) | [(_ & Hfull & _) | (_ & _ & ->)]];
    [congruence | lia |].
  destruct (manifest_loop_first impl f2 rest
              (list_inserts (Z.to_nat 0) (mr_written (impl f1 0 ilen)) devlist)
              ilen count) as [more Hcalls].
  exists more. unfold called. cbn [mo_calls]. rewrite Hcalls. do 3 f_equal.
  unfold size_t.
  rewrite <- (Z.mod_add (ilen - count) 1 (2 ^ 64)) by lia.
  rewrite Z.mod_small; lia.
Qed.

Lemma register_seq_funcs (calls : list (bool * dev_manifest_func_t))
    (g : globals) :
  manifest_funcs (snd (register_seq calls g)) =
    rev (map snd (List.filter fst calls)) ++ manifest_funcs g /\
  fst (register_seq calls g) =
    map (fun c : bool * dev_manifest_func_t =>
           if fst c then FIDO_OK else FIDO_ERR_INTERNAL) calls.
Proof.
  revert g. induction calls as [|[ok f] calls IH]; intros g; [now split|].
  simpl. unfold fido_dev_register_manifest_func.
  destruct ok; simpl.
  - destruct (IH {| manifest_funcs := f :: manifest_funcs g;
                    logging := logging g |}) as [Hfuncs Hcodes].
    destruct (register_seq calls _) as [rs g2]. simpl in *.
    rewrite Hfuncs, Hcodes, <- app_assoc. now split.
  - destruct (IH g) as [Hfuncs Hcodes].
    destruct (register_seq calls g) as [rs g2]. simpl in *.
    rewrite Hfuncs, Hcodes. now split.
Qed.

(** X21: after one [fido_init] on an empty registry, in a build with a
    platform provider, [fido_dev_info_manifest] is one call of that
    provider with the whole capacity: it returns the provider's code
    and, on [FIDO_OK], the provider's count. *)
Theorem init_then_manifest (b : build) (ie : init_env) (flags : Z) (g : globals)
    (impl : manifest_impl) (devlist : list fido_dev_info_t) (ilen : Z)
    (f : dev_manifest_func_t) :
  manifest_funcs g = [] ->
  platform_manifest_func b = Some f ->
  init_calloc_ok ie = true ->
  hid_init_ret ie = 0 ->
  0 <= ilen < 2 ^ 64 ->
  exists g1,
    fido_init b ie flags g = Some g1 /\
    let out := fido_dev_info_manifest impl g1 devlist ilen in
    mo_calls out = [{| mc_func := f; mc_off := 0; mc_cap := ilen |}] /\
    mo_r out = mr_r (impl f 0 ilen) /\
    mo_olen out = if mr_r (impl f 0 ilen) =? FIDO_OK
                  then size_t (mr_olen (impl f 0 ilen)) else 0.
Proof.
  intros Hempty Hf Halloc Hhid Hilen.
  destruct (fido_init_returns b ie flags g Hhid) as [g1 Hg1].
  exists g1. split; [exact Hg1|].
  pose proof (fido_init_funcs b ie flags g g1 Hg1) as Hfuncs.
  rewrite Hf, Halloc, Hempty in Hfuncs.
  unfold fido_dev_info_manifest. rewrite Hfuncs.
  pose proof (manifest_loop_step impl f [] devlist ilen 0) as Hstep.
  cbv zeta in Hstep.
  assert (Hcap : size_t (ilen - 0) = ilen)
    by (rewrite Z.sub_0_r; apply size_t_small; lia).
  rewrite Hcap in Hstep. rewrite Z.add_0_l in Hstep.
  destruct Hstep as [(Herr & ->) | [(Hr & Hfull & ->) | (Hr & _ & ->)]]; simpl.
  - apply Z.eqb_neq in Herr. now rewrite Herr.
  - rewrite Hr, Z.eqb_refl. auto.
  - rewrite Hr, Z.eqb_refl. auto.
Qed.

End RegistryMore.

Section RegistryBalance.
Context `{fido_h} `{!fido_h_errors}.

(** X20: [fido_exit] frees one node per registration that returned
    [FIDO_OK]: after any sequence of registrations on an empty registry,
    some of which may have failed for lack of memory, the registry holds
    the providers of the successful ones, latest first; [fido_exit]
    frees as many nodes as there were [FIDO_OK]s and leaves the registry
    empty, and a manifest taken afterwards calls no provider and reports
    no entry. *)
Theorem exit_frees_what_was_registered
    (calls : list (bool * dev_manifest_func_t)) (g : globals)
    (impl : manifest_impl) (devlist : list fido_dev_info_t) (ilen : Z) :
  manifest_funcs g = [] ->
  let codes := fst (register_seq calls g) in
  let g' := snd (register_seq calls g) in
  manifest_funcs g' = rev (map snd (List.filter fst calls)) /\
  snd (fido_exit g') = length (List.filter (fun r => r =? FIDO_OK) codes) /\
  manifest_funcs (fst (fido_exit g')) = [] /\
  fido_dev_info_manifest impl (fst (fido_exit g')) devlist ilen =
    {| mo_r := FIDO_OK; mo_devlist := devlist; mo_olen := 0; mo_calls := [] |}.
Proof.
  intros Hempty codes g'. subst codes g'.
  destruct (register_seq_funcs calls g) as [Hfuncs Hcodes].
  rewrite Hempty, app_nil_r in Hfuncs.
  split; [exact Hfuncs|]. split; [|split; reflexivity].
  simpl. rewrite Hfuncs, Hcodes.
  assert (Hfree : forall l, free_nodes l = length l)
    by (induction l; simpl; congruence).
  rewrite Hfree, length_rev, length_map.
  assert (Hcount : forall cs : list (bool * dev_manifest_func_t),
            length (List.filter fst cs) =
            length (List.filter (fun r => r =? FIDO_OK)
                      (map (fun c : bool * dev_manifest_func_t =>
                              if fst c then FIDO_OK else FIDO_ERR_INTERNAL) cs))).
  { induction cs as [|[[|] f] cs IH]; simpl; [reflexivity| |].
    - rewrite Z.eqb_refl. simpl. now rewrite IH.
    - rewrite eqb_ok_internal. exact IH. }
  apply Hcount.
Qed.

End RegistryBalance.

(** * Concrete runs of the further properties *)

Lemma open_without_nonce_witness :
  @fido_dev_open libfido2_h release_linux no_random_env fresh_dev None =
  (-9, fresh_dev, []).
Proof.
  destruct (@open_without_nonce libfido2_h libfido2_h_errors release_linux
              no_random_env fresh_dev None eq_refl) as (Hcode & Htrace & Hdev).
  - discriminate.
  - discriminate.
  - left. reflexivity.
  - reflexivity.
Defined.

Lemma open_handle_discipline_witness :
  rtrace (@fido_dev_open libfido2_h release_linux dead_env fresh_dev None) =
    [EvIoOpen fido_hid_open None (Some 1%positive);
     EvTx 0xFFFFFFFF 0x86 (buf_u64 0x0807060504030201) (-1);
     EvIoClose (Some fido_hid_close) (Some 1%positive)].
Proof.
  destruct (@open_handle_discipline libfido2_h libfido2_h_errors release_linux
              dead_env fresh_dev None eq_refl)
    as [(Ht & _) | [(fo & _ & Ht & _) | [(fo & fc & h & n & r & _ & _ & _ & Ht & _)
      | [(fo & fc & h & n & r & k & _ & _ & _ & Ht & _)
        | (fo & h & n & r & _ & _ & Ht & _)]]]]; reflexivity.
Defined.

Lemma open_ok_state_witness :
  rdev (@fido_dev_open libfido2_h release_linux (scripted_env 0xCAFEBABE 5)
          fresh_dev None) =
  {| dev_nonce := 0x0807060504030201;
     dev_attr := scripted_reply 0x0807060504030201 0xCAFEBABE 5;
     dev_cid := 0xCAFEBABE; dev_io_handle := Some 1%positive;
     dev_info := dev_info fresh_dev |}.
Proof.
  destruct (@open_ok_state libfido2_h libfido2_h_errors release_linux
              (scripted_env 0xCAFEBABE 5) fresh_dev None eq_refl)
    as (fo & h & n & reply & _ & _ & _ & _ & Hdev & _).
  reflexivity.
Defined.

Lemma open_ok_iff_witness :
  @cooperative libfido2_h (scripted_env 0xCAFEBABE 5) fresh_dev None (-1) /\
  ~ @cooperative libfido2_h wrong_nonce_env fresh_dev None (-1).
Proof.
  split.
  - apply (proj1 (@open_ok_iff libfido2_h libfido2_h_errors release_linux
                    (scripted_env 0xCAFEBABE 5) fresh_dev None eq_refl)).
    reflexivity.
  - intros Hco.
    assert (Hok : rcode (@fido_dev_open libfido2_h release_linux wrong_nonce_env
                           fresh_dev None) = 0).
    { apply (proj2 (@open_ok_iff libfido2_h libfido2_h_errors release_linux
                      wrong_nonce_env fresh_dev None eq_refl)).
      split; [reflexivity | exact Hco]. }
    vm_compute in Hok. discriminate.
Defined.

Lemma fuzz_build_skips_nonce_check_witness :
  rcode (@fido_dev_open libfido2_h fuzz_linux wrong_nonce_env fresh_dev None) = 0 /\
  rcode (@fido_dev_open libfido2_h release_linux wrong_nonce_env fresh_dev None) = -2.
Proof.
  split; [|reflexivity].
  apply (@fuzz_build_skips_nonce_check libfido2_h fuzz_linux wrong_nonce_env
           fresh_dev
           (rdev (@fido_dev_open_tx libfido2_h wrong_nonce_env fresh_dev None))
           None
           (rtrace (@fido_dev_open_tx libfido2_h wrong_nonce_env fresh_dev None))
           (scripted_reply 0x1111111111111111 0xCAFEBABE 5)
           eq_refl eq_refl eq_refl).
  vm_compute. discriminate.
Defined.

Lemma reopen_sends_init_on_old_channel_witness :
  rtrace (@fido_dev_open libfido2_h release_linux dead_env
            (rdev (@fido_dev_close libfido2_h opened_dev)) None) =
    [EvIoOpen fido_hid_open None (Some 1%positive);
     EvTx 0xCAFEBABE 0x86 (buf_u64 0x0807060504030201) (-1);
     EvIoClose (Some fido_hid_close) (Some 1%positive)] /\
  forall cid cmd buf r,
    In (EvTx cid cmd buf r)
       (rtrace (@fido_dev_open libfido2_h release_linux dead_env
                  (rdev (@fido_dev_close libfido2_h opened_dev)) None)) ->
    cid = 0xCAFEBABE.
Proof.
  split; [reflexivity|].
  exact (proj2 (proj2 (proj2
           (@reopen_sends_init_on_old_channel libfido2_h libfido2_h_errors
              release_linux (scripted_env 0xCAFEBABE 5) dead_env fresh_dev
              (Some "/dev/hidraw0"%string) None eq_refl)))).
Defined.

Lemma failed_open_keeps_channel_witness :
  dev_cid (rdev (@fido_dev_open libfido2_h release_linux wrong_nonce_env
                   fresh_dev None)) = 0xFFFFFFFF.
Proof.
  apply (@failed_open_keeps_channel libfido2_h release_linux
           wrong_nonce_env fresh_dev None).
  vm_compute. discriminate.
Defined.

Lemma rejected_reply_is_kept_witness :
  fido_dev_flags (rdev (@fido_dev_open libfido2_h release_linux wrong_nonce_env
                          fresh_dev None)) = 5 /\
  dev_io_handle (rdev (@fido_dev_open libfido2_h release_linux wrong_nonce_env
                         fresh_dev None)) = None.
Proof.
  destruct (@rejected_reply_is_kept libfido2_h release_linux wrong_nonce_env
              fresh_dev
              (rdev (@fido_dev_open_tx libfido2_h wrong_nonce_env fresh_dev None))
              None
              (rtrace (@fido_dev_open_tx libfido2_h wrong_nonce_env fresh_dev None))
              eq_refl eq_refl) as (_ & Hflags & Hfail).
  split; [exact Hflags|]. apply Hfail. vm_compute. discriminate.
Defined.

Lemma opened_dev_reachable : @reachable libfido2_h release_linux opened_dev.
Proof.
  unfold opened_dev. apply reach_open.
  apply (reach_new release_linux true true). reflexivity.
Qed.

Lemma reachable_vtable_complete_witness :
  complete (info_io (dev_info opened_dev)).
Proof.
  exact (@reachable_vtable_complete libfido2_h release_linux
           opened_dev opened_dev_reachable).
Defined.

Lemma reachable_open_channel_witness :
  dev_cid opened_dev = attr_cid (dev_attr opened_dev) /\
  attr_nonce (dev_attr opened_dev) = dev_nonce opened_dev.
Proof.
  apply (@reachable_open_channel libfido2_h libfido2_h_errors release_linux
           opened_dev opened_dev_reachable).
  vm_compute. discriminate.
Defined.

Lemma installed_vtable_is_used_witness :
  let out := @fido_dev_open libfido2_h release_linux (scripted_env 0xCAFEBABE 5)
               (snd (@fido_dev_set_io_functions libfido2_h fresh_dev
                       (Some user_io))) None in
  @fido_dev_close libfido2_h (rdev out) =
    (0, set_io_handle (rdev out) None,
     [EvIoClose (Some (user_io_fn 2)) (Some 1%positive)]).
Proof.
  exact (proj2 (proj2
           (@installed_vtable_is_used libfido2_h libfido2_h_errors release_linux
              (scripted_env 0xCAFEBABE 5) fresh_dev (user_io_fn 1) (user_io_fn 2)
              (user_io_fn 3) (user_io_fn 4) None eq_refl))
           1%positive eq_refl).
Defined.

Lemma set_io_functions_ok_iff_witness :
  fst (@fido_dev_set_io_functions libfido2_h fresh_dev (Some user_io)) = 0 /\
  @fido_dev_set_io_functions libfido2_h fresh_dev
    (Some {| io_open := Some (user_io_fn 1); io_close := Some (user_io_fn 2);
             io_read := None; io_write := Some (user_io_fn 4) |})
  = (-7, fresh_dev).
Proof.
  split.
  - apply (proj1 (@set_io_functions_ok_iff libfido2_h libfido2_h_errors
                    fresh_dev (Some user_io))).
    split; [reflexivity|]. exists user_io. split; [reflexivity|].
    unfold complete. simpl. repeat split; discriminate.
  - apply (proj2 (@set_io_functions_ok_iff libfido2_h libfido2_h_errors
                    fresh_dev _)).
    vm_compute. discriminate.
Defined.

Lemma new_session_state_witness :
  @fido_dev_is_fido2 libfido2_h fresh_dev = false /\
  @fido_dev_close libfido2_h fresh_dev = (-7, fresh_dev, []).
Proof.
  destruct (@new_session_state libfido2_h fresh_dev) as (_ & _ & _ & Hf & _ & Hc).
  - left. exists true, true. reflexivity.
  - split; [exact Hf | exact Hc].
Defined.

Lemma new_with_info_spec_witness :
  exists d, fido_dev_new_with_info true no_strdup_heap sample_info = Some d /\
            info_path (dev_info d) = None /\
            info_io (dev_info d) = hid_io.
Proof.
  destruct (@new_with_info_spec libfido2_h libfido2_h_errors true no_strdup_heap
              sample_info) as [[_ Hex] Hspec].
  destruct Hex as [d Hd].
  - split; [reflexivity|]. split; [reflexivity|].
    unfold complete. simpl. repeat split; discriminate.
  - exists d. split; [exact Hd|].
    destruct (Hspec d Hd) as (Hio & Hpath & _).
    split; [|exact Hio]. exact (Hpath _ eq_refl).
Defined.

Lemma force_last_wins_witness :
  @fido_dev_force_u2f libfido2_h (@fido_dev_force_fido2 libfido2_h fresh_dev) =
  @fido_dev_force_u2f libfido2_h fresh_dev.
Proof.
  apply (@force_last_wins libfido2_h 2 ltac:(lia) eq_refl fresh_dev).
  vm_compute. split; [discriminate | reflexivity].
Defined.

Lemma manifest_reports_what_was_written_witness :
  let g := @register_all libfido2_h
             [user_manifest_func 2; user_manifest_func 1; user_manifest_func 3]
             empty_globals in
  let out := @fido_dev_info_manifest libfido2_h sample_impl g
               (repeat sample_info 4) 4 in
  take 2 (mo_devlist out) = [zero_dev_info; zero_dev_info].
Proof.
  intros g out.
  destruct (@manifest_reports_what_was_written libfido2_h sample_impl g
              (repeat sample_info 4) 4 ltac:(lia) ltac:(simpl; lia)
              (sample_impl_well_behaved _)) as [Htake _].
  exact Htake.
Defined.

Lemma manifest_keeps_to_capacity_witness :
  let g := @register_all libfido2_h [user_manifest_func 1] empty_globals in
  let out := @fido_dev_info_manifest libfido2_h sample_impl g
               (repeat sample_info 3) 1 in
  length (mo_devlist out) = 3%nat /\
  drop 1 (mo_devlist out) = [sample_info; sample_info].
Proof.
  intros g out.
  exact (@manifest_keeps_to_capacity libfido2_h sample_impl g
           (repeat sample_info 3) 1 ltac:(lia) ltac:(simpl; lia)
           (sample_impl_well_behaved _)).
Defined.

Lemma manifest_trusts_count_witness :
  exists more,
    mo_calls (@fido_dev_info_manifest libfido2_h overreporting_impl
                (@register_all libfido2_h
                   [user_manifest_func 2; user_manifest_func 1] empty_globals)
                (repeat zero_dev_info 4) 4) =
    {| mc_func := user_manifest_func 1; mc_off := 0; mc_cap := 4 |}
    :: {| mc_func := user_manifest_func 2; mc_off := 7;
          mc_cap := 18446744073709551613 |}
    :: more.
Proof.
  apply (@manifest_trusts_count libfido2_h overreporting_impl
           (@register_all libfido2_h
              [user_manifest_func 2; user_manifest_func 1] empty_globals)
           (user_manifest_func 1) (user_manifest_func 2) []
           (repeat zero_dev_info 4) 4 7 eq_refl ltac:(lia) eq_refl eq_refl).
  lia.
Defined.

Lemma exit_frees_what_was_registered_witness :
  let calls := [(true, user_manifest_func 1); (false, user_manifest_func 2);
                (true, user_manifest_func 3)] in
  manifest_funcs (snd (@register_seq libfido2_h calls empty_globals)) =
    [user_manifest_func 3; user_manifest_func 1] /\
  snd (fido_exit (snd (@register_seq libfido2_h calls empty_globals))) = 2%nat.
Proof.
  intros calls.
  destruct (@exit_frees_what_was_registered libfido2_h libfido2_h_errors calls
              empty_globals idle_impl [] 0 eq_refl) as (Hfuncs & Hfreed & _).
  split; [exact Hfuncs | exact Hfreed].
Defined.

Lemma init_then_manifest_witness :
  exists g1,
    @fido_init libfido2_h release_linux quiet_init 0 empty_globals = Some g1 /\
    mo_calls (@fido_dev_info_manifest libfido2_h idle_impl g1
                (repeat zero_dev_info 4) 4) =
    [{| mc_func := fido_dev_info_manifest_linux; mc_off := 0; mc_cap := 4 |}].
Proof.
  destruct (@init_then_manifest libfido2_h release_linux quiet_init 0
              empty_globals idle_impl (repeat zero_dev_info 4) 4
              fido_dev_info_manifest_linux eq_refl eq_refl eq_refl eq_refl
              ltac:(lia)) as (g1 & Hg1 & Hcalls & _).
  exists g1. split; [exact Hg1 | exact Hcalls].
Defined.
